(** * wallFinishingRobot: a shallow embedding of the planning service

    The service of [wallFinishingRobot.py] is a set of HTTP handlers over
    three shared handles: a Redis client [r], a PostgreSQL cursor
    [cursor] and a RabbitMQ [channel].  The handlers are embedded as
    functions over an explicit [world] (the contents of the three
    handles); a handler returns the response or the exception that
    leaves it, together with the new world.

    The cursor belongs to the one connection the module opens, which no
    handler rolls back: the world records whether a statement has failed
    on it, and the uuid columns compare identifiers as values, not as
    texts.

    What lies outside the file is taken as it is used:
    - [json.dumps]/[json.loads] are an interface ([Codec]) with the two
      laws the handlers rely on; a reference codec instantiates it;
    - [uuid.uuid4()] is the one source of randomness: the text of the
      value drawn is an explicit argument of the handler that draws it;
    - the server reads a text bound to a uuid column with the input
      function of its uuid type ([uuid_in]), and the driver refuses to
      bind a str that has a NUL character;
    - [aStar.astar] is a parameter of the handlers that call it;
    - logging has no reader inside the service and is left out. *)

From Stdlib Require Import ZArith String Ascii List Bool Lia SpecFloat.
From Stdlib Require Import DecimalPos DecimalN QArith Qround.
From stdpp Require Import base option list gmap strings.

Set Warnings "-register-all".

Local Open Scope Z_scope.

(** ** Python values *)

(** The JSON-shaped fragment of Python values: [None], [bool], [int],
    [float], [str], [list] (a tuple serialises as a list) and [dict] with
    string keys, in insertion order. *)
Inductive json : Type :=
| JNull
| JBool (b : bool)
| JInt (n : Z)
| JFloat (f : spec_float)
| JStr (s : string)
| JArr (items : list json)
| JObj (fields : list (string * json)).

(** The exceptions raised inside the handlers. *)
Inductive pyexc : Type :=
| TypeError
| ValueError
| OverflowError
| KeyError (key : string)
| JSONDecodeError
| IntegrityError
| DataError
| InFailedSqlTransaction
| OtherError (name : string).

(** [detail] of an [HTTPException]: a literal, or [str(e)]. *)
Inductive detail : Type :=
| Message (s : string)
| StrOf (e : pyexc).

(** What leaves a handler when it does not return: an [HTTPException] it
    raised itself, or an exception nobody caught. *)
Inductive failure : Type :=
| HTTPException (status_code : Z) (d : detail)
| Uncaught (e : pyexc).

#[global] Instance pyexc_eq_dec : EqDecision pyexc.
Proof. solve_decision. Defined.
#[global] Instance detail_eq_dec : EqDecision detail.
Proof. solve_decision. Defined.
#[global] Instance failure_eq_dec : EqDecision failure.
Proof. solve_decision. Defined.

(** A dict holds one value per key; in the association list the last
    binding of a key is the live one. *)
Fixpoint dict_get (k : string) (fields : list (string * json)) : option json :=
  match fields with
  | [] => None
  | (k', v) :: rest =>
      match dict_get k rest with
      | Some w => Some w
      | None => if String.eqb k k' then Some v else None
      end
  end.

(** [k in d] for a response or a document; [None] when [v] is no dict. *)
Definition json_field (k : string) (v : json) : option json :=
  match v with
  | JObj fields => dict_get k fields
  | _ => None
  end.

Fixpoint keys_distinct (ks : list string) : bool :=
  match ks with
  | [] => true
  | k :: rest => negb (existsb (String.eqb k) rest) && keys_distinct rest
  end.

(** Values that are Python values: every dict has distinct keys. *)
Fixpoint json_wf (v : json) : bool :=
  match v with
  | JArr items => forallb json_wf items
  | JObj fields =>
      keys_distinct (map fst fields)
      && forallb (fun kv => json_wf (snd kv)) fields
  | _ => true
  end.

(** ** Builtins used by the handlers *)

(** [int(x)] on a float truncates toward zero; infinities and NaN have no
    integer. *)
Definition float_trunc (f : spec_float) : pyexc + Z :=
  match f with
  | S754_zero _ => inr 0
  | S754_infinity _ => inl OverflowError
  | S754_nan => inl ValueError
  | S754_finite s m e =>
      let a := Z.shiftl (Z.pos m) e in
      inr (if s then - a else a)
  end.

Definition string_chars (s : string) : list json :=
  map (fun c => JStr (String c EmptyString)) (list_ascii_of_string s).

(** [for obs in v]: the items of a list, the keys of a dict, the
    characters of a str. *)
Definition py_iter (v : json) : pyexc + list json :=
  match v with
  | JArr items => inr items
  | JObj fields => inr (map (fun kv => JStr (fst kv)) fields)
  | JStr s => inr (string_chars s)
  | _ => inl TypeError
  end.

(** [v[k]] with a str key. *)
Definition py_getitem (v : json) (k : string) : pyexc + json :=
  match v with
  | JObj fields =>
      match dict_get k fields with
      | Some w => inr w
      | None => inl (KeyError k)
      end
  | _ => inl TypeError
  end.

Definition py_len_list {A} (l : list A) : Z := Z.of_nat (length l).

(** ** The json module and [int] on strings *)

(** The part of the runtime that the handlers use as a black box.
    [loads_dumps] is the round trip of the json module on Python values,
    [dumps_nonempty] says a document is never the empty (falsy) str. *)
Class Codec := {
  dumps : json -> string;
  loads : string -> pyexc + json;
  int_of_str : string -> pyexc + Z;
  loads_dumps : forall v, json_wf v = true -> loads (dumps v) = inr v;
  dumps_nonempty : forall v, dumps v <> "";
}.

(** [int(v)]. *)
Definition py_int `{Codec} (v : json) : pyexc + Z :=
  match v with
  | JBool b => inr (if b then 1 else 0)
  | JInt n => inr n
  | JFloat f => float_trunc f
  | JStr s => int_of_str s
  | _ => inl TypeError
  end.

(** [json.loads(r.get(key))]: [r.get] yields [None] for a missing key and
    [json.loads(None)] raises [TypeError]. *)
Definition loads_opt `{Codec} (o : option string) : pyexc + json :=
  match o with
  | None => inl TypeError
  | Some s => loads s
  end.

(** Sequencing of steps that may raise. *)
Definition ebind {A B} (c : pyexc + A) (k : A -> pyexc + B) : pyexc + B :=
  match c with
  | inl e => inl e
  | inr a => k a
  end.

Notation "'do' x <- c ; k" := (ebind c (fun x => k))
  (at level 10, x name, c at level 100, k at level 200).

(** ** Request models (pydantic) *)

Module Obstacle.
Record t := {
  shape : string;
  x : spec_float;
  y : spec_float;
  radius : option spec_float;
  width : option spec_float;
  height : option spec_float;
}.
End Obstacle.

Module Wall.
Record t := {
  width : spec_float;
  height : spec_float;
  obstacles : list Obstacle.t;
}.
End Wall.

Module PathRequest.
Record t := {
  wall_id : string;
  algorithm : string;
}.
End PathRequest.

Definition optional_float (o : option spec_float) : json :=
  match o with
  | None => JNull
  | Some f => JFloat f
  end.

(** [obs.dict()] *)
Definition obstacle_dict (obs : Obstacle.t) : json :=
  JObj [("shape", JStr (Obstacle.shape obs));
        ("x", JFloat (Obstacle.x obs));
        ("y", JFloat (Obstacle.y obs));
        ("radius", optional_float (Obstacle.radius obs));
        ("width", optional_float (Obstacle.width obs));
        ("height", optional_float (Obstacle.height obs))].

(** [[obs.dict() for obs in wall.obstacles]] *)
Definition obstacles_doc (obstacles : list Obstacle.t) : json :=
  JArr (map obstacle_dict obstacles).

(** ** The uuid type of the database *)

(** The value of a hexadecimal digit, in either case. *)
Definition hex_value (c : ascii) : option N :=
  let n := N_of_ascii c in
  if (48 <=? n)%N && (n <=? 57)%N then Some (n - 48)%N
  else if (97 <=? n)%N && (n <=? 102)%N then Some (n - 87)%N
  else if (65 <=? n)%N && (n <=? 70)%N then Some (n - 55)%N
  else None.

(** The bytes of a uuid, [todo] of them: two hexadecimal digits each; one
    hyphen may follow a group of four digits, the last group apart. *)
Fixpoint uuid_bytes (todo : nat) (s : list ascii) : option (list N * list ascii) :=
  match todo with
  | O => Some ([], s)
  | S todo' =>
      match s with
      | hi :: lo :: rest =>
          match hex_value hi, hex_value lo with
          | Some h, Some l =>
              let rest' :=
                match rest with
                | c :: after =>
                    if Ascii.eqb c "-" && Nat.even todo'
                       && negb (Nat.eqb todo' 0)
                    then after else rest
                | [] => rest
                end in
              match uuid_bytes todo' rest' with
              | Some (bytes, tail) => Some ((16 * h + l)%N :: bytes, tail)
              | None => None
              end
          | _, _ => None
          end
      | _ => None
      end
  end.

(** The input function of the uuid type of PostgreSQL: the 16 bytes a
    text denotes, [None] when the text is not a uuid.  Digits of either
    case, optional hyphens between groups of four digits and optional
    braces around the whole are read; nothing else is. *)
Definition uuid_in (text : string) : option (list N) :=
  let s := list_ascii_of_string text in
  let braces :=
    match s with
    | c :: _ => Ascii.eqb c "{"
    | [] => false
    end in
  match uuid_bytes 16 (if braces then tail s else s) with
  | Some (bytes, rest) =>
      if bool_decide (rest = if braces then ["}"%char] else [])
      then Some bytes else None
  | None => None
  end.

(** [text] denotes the uuid [u]. *)
Definition same_uuid (u : list N) (text : string) : bool :=
  bool_decide (uuid_in text = Some u).

Definition is_uuid (text : string) : bool :=
  match uuid_in text with
  | Some _ => true
  | None => false
  end.

(** [text] is a uuid that none of [ids] denotes. *)
Definition fresh_uuid (text : string) (ids : list string) : bool :=
  match uuid_in text with
  | Some u => negb (existsb (same_uuid u) ids)
  | None => false
  end.

(** A str with a NUL character cannot be bound to a statement. *)
Definition has_nul (s : string) : bool :=
  existsb (Ascii.eqb Ascii.zero) (list_ascii_of_string s).

(** ** The world: Redis, the two tables, the queue, the connection *)

(** A row of [walls] ([created_at] is never read back).  [wr_id] is the
    text the uuid of the row was written as; the server compares the
    values ([uuid_in]) and never hands the column back. *)
Record wall_row := {
  wr_id : string;
  wr_width : spec_float;
  wr_height : spec_float;
}.

(** A row of [paths].  The JSONB columns hold documents: the text written
    is parsed by the server and comes back from a SELECT as a value. *)
Record path_row := {
  pr_id : string;
  pr_wall_id : string;
  pr_algorithm : string;
  pr_path_json : json;
  pr_metrics_json : json;
}.

(** The three handles are taken to be reachable.  [aborted] is the state
    of the one connection of lines 31-32: a statement that the server
    refuses leaves its transaction aborted, and as no handler rolls back,
    it stays so. *)
Record world := {
  redis : gmap string string;
  walls : list wall_row;
  paths : list path_row;
  robot_path : list string;
  aborted : bool;
}.

Definition empty_world : world :=
  {| redis := ∅; walls := []; paths := []; robot_path := [];
     aborted := false |}.

(** [f"wall:{wall_id}:obstacles"] and [f"path:{path_id}"] *)
Definition wall_key (wall_id : string) : string :=
  "wall:" +:+ wall_id +:+ ":obstacles".
Definition path_key (path_id : string) : string :=
  "path:" +:+ path_id.

(** [r.set(key, value)] *)
Definition r_set (key value : string) (st : world) : world :=
  {| redis := <[key := value]> (redis st); walls := walls st;
     paths := paths st; robot_path := robot_path st;
     aborted := aborted st |}.

(** [r.get(key)] *)
Definition r_get (key : string) (st : world) : option string :=
  redis st !! key.

(** [not v] for what [r.get] returns: [None] and the empty str are
    falsy. *)
Definition truthy (o : option string) : option string :=
  match o with
  | Some "" => None
  | other => other
  end.

(** The world after the server has refused a statement. *)
Definition abort (st : world) : world :=
  {| redis := redis st; walls := walls st; paths := paths st;
     robot_path := robot_path st; aborted := true |}.

(** [cursor.execute] goes through the same steps for every statement.
    The driver refuses a bound str that has a NUL with [ValueError], and
    sends nothing.  The server refuses every statement of an aborted
    transaction; it refuses a text that is no uuid where a uuid is
    expected ([DataError]) and a primary key that is taken
    ([IntegrityError]), and either refusal leaves the transaction
    aborted. *)

(** [INSERT INTO walls] and [conn.commit()]: [id] is the primary key. *)
Definition insert_wall (row : wall_row) (st : world) : (pyexc + unit) * world :=
  if has_nul (wr_id row) then (inl ValueError, st)
  else if aborted st then (inl InFailedSqlTransaction, st)
  else
    match uuid_in (wr_id row) with
    | None => (inl DataError, abort st)
    | Some u =>
        if existsb (same_uuid u) (map wr_id (walls st))
        then (inl IntegrityError, abort st)
        else (inr tt,
              {| redis := redis st; walls := walls st ++ [row];
                 paths := paths st; robot_path := robot_path st;
                 aborted := false |})
    end.

(** [INSERT INTO paths] and [conn.commit()]: [id] is the primary key,
    [wall_id] is a uuid too (no foreign key is declared).  The two JSONB
    columns are bound as the text of [json.dumps], which escapes control
    characters, and are kept here as the documents they denote. *)
Definition insert_path (row : path_row) (st : world) : (pyexc + unit) * world :=
  if has_nul (pr_id row) || has_nul (pr_wall_id row)
     || has_nul (pr_algorithm row)
  then (inl ValueError, st)
  else if aborted st then (inl InFailedSqlTransaction, st)
  else
    match uuid_in (pr_id row), uuid_in (pr_wall_id row) with
    | Some u, Some _ =>
        if existsb (same_uuid u) (map pr_id (paths st))
        then (inl IntegrityError, abort st)
        else (inr tt,
              {| redis := redis st; walls := walls st;
                 paths := paths st ++ [row]; robot_path := robot_path st;
                 aborted := false |})
    | _, _ => (inl DataError, abort st)
    end.

(** [SELECT ... FROM paths WHERE id = %s] followed by [fetchone()]: the
    row whose [id] is the uuid that [path_id] denotes. *)
Definition select_path (path_id : string) (st : world)
  : (pyexc + option path_row) * world :=
  if has_nul path_id then (inl ValueError, st)
  else if aborted st then (inl InFailedSqlTransaction, st)
  else
    match uuid_in path_id with
    | None => (inl DataError, abort st)
    | Some u => (inr (find (fun row => same_uuid u (pr_id row)) (paths st)), st)
    end.

(** [channel.basic_publish(exchange='', routing_key='robot_path', body=...)] *)
Definition basic_publish (body : string) (st : world) : world :=
  {| redis := redis st; walls := walls st; paths := paths st;
     robot_path := robot_path st ++ [body]; aborted := aborted st |}.

(** ** Rasterisation (lines 91-97 of generate_path) *)

Definition cell : Type := Z * Z.
Definition grid_size : Z := 10.

(** [[[0]*grid_size for _ in range(grid_size)]]: ten distinct rows. *)
Definition empty_grid : list (list Z) :=
  repeat (repeat 0 (Z.to_nat grid_size)) (Z.to_nat grid_size).

(** [grid[y][x] = 1], for indices already checked to be in range. *)
Definition set_cell (grid : list (list Z)) (x y : Z) : list (list Z) :=
  alter (fun row => <[Z.to_nat x := 1]> row) (Z.to_nat y) grid.

(** [grid[y][x]]; [None] outside the grid. *)
Definition grid_at (grid : list (list Z)) (x y : Z) : option Z :=
  if (0 <=? x) && (0 <=? y)
  then row ← grid !! Z.to_nat y; row !! Z.to_nat x
  else None.

Definition in_grid (x y : Z) : bool :=
  (0 <=? x) && (x <? grid_size) && (0 <=? y) && (y <? grid_size).

Section Handlers.
Context `{Codec}.

(** The body of the loop, for one [obs]. *)
Definition mark (grid : list (list Z)) (obs : json) : pyexc + list (list Z) :=
  do vx <- py_getitem obs "x";
  do x <- py_int vx;
  do vy <- py_getitem obs "y";
  do y <- py_int vy;
  inr (if in_grid x y then set_cell grid x y else grid).

Fixpoint mark_all (grid : list (list Z)) (items : list json)
  : pyexc + list (list Z) :=
  match items with
  | [] => inr grid
  | obs :: rest => do grid' <- mark grid obs; mark_all grid' rest
  end.

Definition rasterize (wall_obstacles : json) : pyexc + list (list Z) :=
  do items <- py_iter wall_obstacles;
  mark_all empty_grid items.

(** ** The handlers *)

(** [aStar.astar(grid, start, goal)]: the module is not part of the
    file; the call may raise, or return a list of cells or [None]. *)
Variable astar : list (list Z) -> cell -> cell -> pyexc + option (list cell).

Definition cell_json (c : cell) : json := JArr [JInt (fst c); JInt (snd c)].
Definition path_doc (path : list cell) : json := JArr (map cell_json path).

(** [{"duration_ms": 50, "path_length": len(path)}] *)
Definition metrics_doc (path : list cell) : json :=
  JObj [("duration_ms", JInt 50); ("path_length", JInt (py_len_list path))].

(** [create_wall], with [wall_id] the value of [str(uuid.uuid4())]. *)
Definition create_wall (wall_id : string) (wall : Wall.t) (st : world)
  : (failure + json) * world :=
  match insert_wall {| wr_id := wall_id; wr_width := Wall.width wall;
                       wr_height := Wall.height wall |} st with
  | (inl e, st1) => (inl (Uncaught e), st1)
  | (inr _, st1) =>
      let st2 := r_set (wall_key wall_id)
                       (dumps (obstacles_doc (Wall.obstacles wall))) st1 in
      (inr (JObj [("wall_id", JStr wall_id)]), st2)
  end.

(** Lines 91-101: the grid, the search, and [len(path)], which raises
    [TypeError] on [None]. *)
Definition find_path (wall_obstacles : json) : pyexc + list cell :=
  do grid <- rasterize wall_obstacles;
  do path <- astar grid (0, 0) (grid_size - 1, grid_size - 1);
  match path with
  | None => inl TypeError
  | Some cells => inr cells
  end.

(** Lines 87-101: everything up to the metrics; no handle is written. *)
Definition compute_path (req : PathRequest.t) (st : world)
  : pyexc + list cell :=
  do wall_obstacles <- loads_opt (r_get (wall_key (PathRequest.wall_id req)) st);
  find_path wall_obstacles.

(** Lines 103-110: persist, cache, respond. *)
Definition record_path (path_id : string) (req : PathRequest.t)
    (path : list cell) (st : world) : (pyexc + json) * world :=
  match insert_path {| pr_id := path_id;
                       pr_wall_id := PathRequest.wall_id req;
                       pr_algorithm := PathRequest.algorithm req;
                       pr_path_json := path_doc path;
                       pr_metrics_json := metrics_doc path |} st with
  | (inl e, st1) => (inl e, st1)
  | (inr _, st1) =>
      let st2 := r_set (path_key path_id) (dumps (path_doc path)) st1 in
      (inr (JObj [("path_id", JStr path_id);
                  ("path", path_doc path);
                  ("metrics", metrics_doc path)]), st2)
  end.

(** [generate_path], with [path_id] the value of [str(uuid.uuid4())].
    The [try] covers the whole body; whatever is raised inside becomes
    [HTTPException(status_code=500, detail=str(e))]. *)
Definition generate_path (path_id : string) (req : PathRequest.t) (st : world)
  : (failure + json) * world :=
  let attempt :=
    match compute_path req st with
    | inl e => (inl e, st)
    | inr path => record_path path_id req path st
    end in
  match attempt with
  | (inl e, st') => (inl (HTTPException 500 (StrOf e)), st')
  | (inr response, st') => (inr response, st')
  end.

(** [execute_path] *)
Definition execute_path (path_id : string) (st : world)
  : (failure + json) * world :=
  let sent := inr (JObj [("status", JStr "sent")]) in
  match truthy (r_get (path_key path_id) st) with
  | Some path_json => (sent, basic_publish path_json st)
  | None =>
      match select_path path_id st with
      | (inl e, st1) => (inl (Uncaught e), st1)
      | (inr None, st1) =>
          (inl (HTTPException 404 (Message "Path not found")), st1)
      | (inr (Some result), st1) =>
          (sent, basic_publish (dumps (pr_path_json result)) st1)
      end
  end.

(** [len(r.keys("path:*"))] *)
Definition cached_paths (st : world) : Z :=
  Z.of_nat (length (filter (fun key => String.prefix "path:" key = true)
                           (map fst (map_to_list (redis st))))).

(** [get_metrics] *)
Definition get_metrics (st : world) : (failure + json) * world :=
  let robot_status :=
    match truthy (r_get "robot_status" st) with
    | Some s => s
    | None => "idle"
    end in
  (inr (JObj [("api_response_time_ms", JInt 20);
              ("robot_status", JStr robot_status);
              ("cached_paths", JInt (cached_paths st))]), st).

(** [get_path] *)
Definition get_path (path_id : string) (st : world)
  : (failure + json) * world :=
  match select_path path_id st with
  | (inl e, st1) => (inl (Uncaught e), st1)
  | (inr None, st1) =>
      (inl (HTTPException 404 (Message "Path not found")), st1)
  | (inr (Some row), st1) =>
      (inr (JObj [("path", pr_path_json row);
                  ("metrics", pr_metrics_json row)]), st1)
  end.

(** A request to the service, with the identifier drawn while it is
    served where the handler draws one. *)
Inductive request : Type :=
| CreateWall (wall_id : string) (wall : Wall.t)
| GeneratePath (path_id : string) (req : PathRequest.t)
| ExecutePath (path_id : string)
| GetMetrics
| GetPath (path_id : string).

Definition serve (rq : request) (st : world) : (failure + json) * world :=
  match rq with
  | CreateWall wall_id wall => create_wall wall_id wall st
  | GeneratePath path_id req => generate_path path_id req st
  | ExecutePath path_id => execute_path path_id st
  | GetMetrics => get_metrics st
  | GetPath path_id => get_path path_id st
  end.

(** The world after a sequence of requests, failed ones included. *)
Definition serve_all (rqs : list request) (st : world) : world :=
  fold_left (fun st rq => snd (serve rq st)) rqs st.

End Handlers.

(** ** Notions used to state the properties *)

(** [wall_id] has a row in [walls] and [text] under its Redis key. *)
Definition registered (wall_id text : string) (st : world) : Prop :=
  r_get (wall_key wall_id) st = Some text
  /\ existsb (String.eqb wall_id) (map wr_id (walls st)) = true.

(** The row [generate_path] inserts and the world it leaves on success. *)
Definition planned_row (path_id : string) (req : PathRequest.t)
    (path : list cell) : path_row :=
  {| pr_id := path_id;
     pr_wall_id := PathRequest.wall_id req;
     pr_algorithm := PathRequest.algorithm req;
     pr_path_json := path_doc path;
     pr_metrics_json := metrics_doc path |}.

Definition planned_world `{Codec} (path_id : string) (req : PathRequest.t)
    (path : list cell) (st : world) : world :=
  r_set (path_key path_id) (dumps (path_doc path))
    {| redis := redis st; walls := walls st;
       paths := paths st ++ [planned_row path_id req path];
       robot_path := robot_path st; aborted := false |}.

(** The INSERT of [generate_path] is accepted in [st]: no bound str has a
    NUL, the connection is usable, [wall_id] is a uuid and [path_id] is a
    uuid that no row of [paths] has. *)
Definition accepts_plan (path_id : string) (req : PathRequest.t) (st : world)
  : bool :=
  negb (has_nul (PathRequest.algorithm req))
  && negb (aborted st)
  && is_uuid (PathRequest.wall_id req)
  && fresh_uuid path_id (map pr_id (paths st)).

(** The INSERT of [create_wall] is accepted in [st]: the connection is
    usable and [wall_id] is a uuid that no row of [walls] has. *)
Definition accepts_wall (wall_id : string) (st : world) : bool :=
  negb (aborted st) && fresh_uuid wall_id (map wr_id (walls st)).

(** The four stores without the state of the connection. *)
Definition stores (st : world)
  : gmap string string * list wall_row * list path_row * list string :=
  (redis st, walls st, paths st, robot_path st).

(** The exceptions that leave [cursor.execute] for a SELECT. *)
Definition select_error (e : pyexc) : Prop :=
  e = ValueError \/ e = InFailedSqlTransaction \/ e = DataError.

Definition planned_response (path_id : string) (path : list cell) : json :=
  JObj [("path_id", JStr path_id);
        ("path", path_doc path);
        ("metrics", metrics_doc path)].

(** The columns of a row of [paths] other than [algorithm]. *)
Definition without_algorithm (row : path_row) : string * string * json * json :=
  (pr_id row, pr_wall_id row, pr_path_json row, pr_metrics_json row).

(** The cell an obstacle stands in: [(int(x), int(y))]. *)
Definition anchor (obs : Obstacle.t) : pyexc + cell :=
  do x <- float_trunc (Obstacle.x obs);
  do y <- float_trunc (Obstacle.y obs);
  inr (x, y).

(** [obs] stands in the cell [(x, y)]. *)
Definition anchored_at (x y : Z) (obs : Obstacle.t) : bool :=
  match anchor obs with
  | inr c => (fst c =? x) && (snd c =? y)
  | inl _ => false
  end.

(** The loop of [generate_path] over obstacles as they were submitted. *)
Fixpoint mark_cells (grid : list (list Z)) (obstacles : list Obstacle.t)
  : pyexc + list (list Z) :=
  match obstacles with
  | [] => inr grid
  | obs :: rest =>
      do c <- anchor obs;
      mark_cells (if in_grid (fst c) (snd c)
                  then set_cell grid (fst c) (snd c) else grid) rest
  end.

(** A grid of [grid_size] rows of [grid_size] cells. *)
Definition square (grid : list (list Z)) : Prop :=
  length grid = Z.to_nat grid_size
  /\ Forall (fun row => length row = Z.to_nat grid_size) grid.

(** The number of occupied cells. *)
Definition occupied (grid : list (list Z)) : nat :=
  length (filter (fun v => v = 1) (concat grid)).

(** What the service keeps true of its three stores: identifiers are the
    keys of their tables; Redis holds the obstacles of the walls of
    [walls] and the paths of the rows of [paths], and nothing else; a row
    of [paths] belongs to a wall of [walls] and has the metrics of its
    path. *)
Definition coherent `{Codec} (st : world) : Prop :=
  NoDup (map wr_id (walls st))
  /\ NoDup (map pr_id (paths st))
  /\ (forall key text, redis st !! key = Some text ->
        (exists w, key = wall_key w /\ In w (map wr_id (walls st)))
        \/ (exists row, key = path_key (pr_id row) /\ In row (paths st)
                        /\ text = dumps (pr_path_json row)))
  /\ (forall w, In w (map wr_id (walls st)) ->
        is_Some (redis st !! wall_key w))
  /\ (forall row, In row (paths st) ->
        redis st !! path_key (pr_id row) = Some (dumps (pr_path_json row))
        /\ In (pr_wall_id row) (map wr_id (walls st))
        /\ exists path, pr_path_json row = path_doc path
                        /\ pr_metrics_json row = metrics_doc path)
  /\ (forall row, In row (paths st) ->
        exists u, uuid_in (pr_id row) = Some u
                  /\ find (fun r => same_uuid u (pr_id r)) (paths st)
                     = Some row).

(** The world after Redis has dropped the cache entry of [path_id]. *)
Definition evict (path_id : string) (st : world) : world :=
  {| redis := delete (path_key path_id) (redis st);
     walls := walls st; paths := paths st; robot_path := robot_path st;
     aborted := aborted st |}.

(** The keys under "path:" are as many as the rows of [paths]. *)
Definition counted (st : world) : Prop :=
  cached_paths st = Z.of_nat (length (paths st)).

(** A float that has an integer part. *)
Definition finite_float (f : spec_float) : bool :=
  match f with
  | S754_zero _ | S754_finite _ _ _ => true
  | _ => false
  end.

(** A grid whose cells hold 0 or 1. *)
Definition binary (grid : list (list Z)) : Prop :=
  Forall (Forall (fun v => v = 0 \/ v = 1)) grid.

(** The floats [int] is applied to, in the order of the loop. *)
Definition coordinates (obstacles : list Obstacle.t) : list spec_float :=
  flat_map (fun obs => [Obstacle.x obs; Obstacle.y obs]) obstacles.

(** The integer part of a rational: the integer next to it toward
    zero. *)
Definition int_part (q : Q) : Z :=
  if Qle_bool 0 q then Qfloor q else Qceiling q.

(** A coordinate that falls into the grid once truncated. *)
Definition within (q : Q) : Prop :=
  (inject_Z (-1) < q)%Q /\ (q < inject_Z grid_size)%Q.

(** ** The rule of the specification for circles *)

(** The value of a finite float. *)
Definition float_Q (f : spec_float) : option Q :=
  match f with
  | S754_zero _ => Some 0%Q
  | S754_finite s m e =>
      let q := match e with
               | Z.neg k => (Z.pos m # Pos.pow 2 k)%Q
               | _ => inject_Z (Z.pos m * 2 ^ e)
               end in
      Some (if s then Qopp q else q)
  | _ => None
  end.

(** Section 4.1 in its words: the wall is partitioned into
    [grid_size] x [grid_size] cells, and a circle marks a cell when the
    distance from the cell's centre to the obstacle's centre is at most
    the radius.  [spec_circle_covers wall obs x y] says so of the cell in
    column [x] and row [y]. *)
Definition spec_circle_covers (wall : Wall.t) (obs : Obstacle.t) (x y : Z)
  : bool :=
  match float_Q (Wall.width wall), float_Q (Wall.height wall),
        float_Q (Obstacle.x obs), float_Q (Obstacle.y obs),
        Obstacle.radius obs ≫= float_Q with
  | Some w, Some h, Some cx, Some cy, Some r =>
      let centre_x := ((inject_Z x + (1 # 2)) * w / inject_Z grid_size)%Q in
      let centre_y := ((inject_Z y + (1 # 2)) * h / inject_Z grid_size)%Q in
      Qle_bool ((centre_x - cx) * (centre_x - cx)
                + (centre_y - cy) * (centre_y - cy))%Q (r * r)%Q
  | _, _, _, _, _ => false
  end.

(** ** The search of module aStar *)

(** A node of the open set: its cell, the cost from the start, the
    heuristic to the goal and the cells walked so far, last first. *)
Record node := {
  n_cell : cell;
  n_g : Z;
  n_h : Z;
  n_trail : list cell;
}.

Definition cell_eqb (a b : cell) : bool :=
  (fst a =? fst b) && (snd a =? snd b).

Definition manhattan (a b : cell) : Z :=
  Z.abs (fst a - fst b) + Z.abs (snd a - snd b).

(** A cell is free when it lies in the grid and holds 0. *)
Definition free_cell (grid : list (list Z)) (c : cell) : bool :=
  match grid_at grid (snd c) (fst c) with
  | Some 0 => true
  | _ => false
  end.

(** [a] goes before [b]: lower f, then lower h; on a tie the one already
    in front stays in front. *)
Definition better (a b : node) : bool :=
  let fa := n_g a + n_h a in
  let fb := n_g b + n_h b in
  (fa <? fb) || ((fa =? fb) && (n_h a <? n_h b)).

(** The best node of the open set and the others, in insertion order. *)
Fixpoint pop_best (open : list node) : option (node * list node) :=
  match open with
  | [] => None
  | a :: rest =>
      match pop_best rest with
      | None => Some (a, [])
      | Some (b, others) =>
          if better b a then Some (b, a :: others) else Some (a, rest)
      end
  end.

Definition neighbours (c : cell) : list cell :=
  [(fst c - 1, snd c); (fst c + 1, snd c); (fst c, snd c - 1); (fst c, snd c + 1)].

Fixpoint search (fuel : nat) (grid : list (list Z)) (goal : cell)
    (open : list node) (closed : list cell) : list cell :=
  match fuel with
  | O => []
  | S fuel' =>
      match pop_best open with
      | None => []
      | Some (best, others) =>
          let c := n_cell best in
          if cell_eqb c goal then rev (c :: n_trail best)
          else if existsb (cell_eqb c) closed
          then search fuel' grid goal others closed
          else
            let closed' := c :: closed in
            let fresh :=
              filter (fun d => free_cell grid d
                               && negb (existsb (cell_eqb d) closed'))
                     (neighbours c) in
            let pushed :=
              map (fun d => {| n_cell := d; n_g := n_g best + 1;
                               n_h := manhattan d goal;
                               n_trail := c :: n_trail best |}) fresh in
            search fuel' grid goal (others ++ pushed) closed'
      end
  end.

(** Modelled from the spec: [astar] of module aStar, which is imported by
    the service and is not part of the file.  Section 4.2: start and goal
    must be free cells of the grid ([InvalidEndpointError] otherwise);
    4-neighbour moves of cost 1 with the Manhattan heuristic; the open
    set is ordered by f = g + h, ties by lower h and then by insertion;
    a closed set prevents re-expansion; the search ends when the goal is
    popped, or with the empty path when the open set empties.  A cell
    names its row first, as the grid is indexed. *)
Definition astar_spec (grid : list (list Z)) (start goal : cell)
  : pyexc + option (list cell) :=
  if free_cell grid start && free_cell grid goal then
    inr (Some (search (S (4 * length (concat grid))%nat) grid goal
                 [{| n_cell := start; n_g := 0; n_h := manhattan start goal;
                     n_trail := [] |}] []))
  else inl (OtherError "InvalidEndpointError").

(** The cells of the grid joined to [start] by moves between free
    neighbours. *)
Inductive route (grid : list (list Z)) (start : cell) : cell -> Prop :=
| route_start :
    free_cell grid start = true -> route grid start start
| route_step (c d : cell) :
    route grid start c -> In d (neighbours c) -> free_cell grid d = true ->
    route grid start d.

(** ** A reference codec

    An instance of [Codec] that prints and parses JSON text, used to run
    the handlers on concrete worlds.  Documents are printed with the
    separators of [json.dumps] (", " and ": ").  A finite float is
    printed exactly, as mantissa, the letter p and the binary exponent;
    in a str only the quote and the backslash are escaped. *)
Module RefCodec.
Import Decimal.
Local Open Scope char_scope.
Local Open Scope list_scope.

(** The double quote, character 34. *)
Abbreviation dquote := (Ascii false true false false false true false false).

Fixpoint uint_chars (u : uint) : list ascii :=
  match u with
  | Nil => []
  | D0 u => "0" :: uint_chars u
  | D1 u => "1" :: uint_chars u
  | D2 u => "2" :: uint_chars u
  | D3 u => "3" :: uint_chars u
  | D4 u => "4" :: uint_chars u
  | D5 u => "5" :: uint_chars u
  | D6 u => "6" :: uint_chars u
  | D7 u => "7" :: uint_chars u
  | D8 u => "8" :: uint_chars u
  | D9 u => "9" :: uint_chars u
  end.

Definition digit_of (c : ascii) : option (uint -> uint) :=
  match c with
  | "0" => Some D0 | "1" => Some D1 | "2" => Some D2 | "3" => Some D3
  | "4" => Some D4 | "5" => Some D5 | "6" => Some D6 | "7" => Some D7
  | "8" => Some D8 | "9" => Some D9
  | _ => None
  end.

(** The longest prefix of digits, and what follows it. *)
Fixpoint take_digits (s : list ascii) : uint * list ascii :=
  match s with
  | [] => (Nil, [])
  | c :: rest =>
      match digit_of c with
      | Some d => let (u, r) := take_digits rest in (d u, r)
      | None => (Nil, s)
      end
  end.

Definition nat_chars (n : N) : list ascii := uint_chars (N.to_uint n).

Definition int_chars (n : Z) : list ascii :=
  match n with
  | Z.neg p => "-" :: nat_chars (N.pos p)
  | _ => nat_chars (Z.to_N n)
  end.

(** An unsigned decimal: at least one digit. *)
Definition parse_nat (s : list ascii) : option (N * list ascii) :=
  match take_digits s with
  | (Nil, _) => None
  | (u, r) => Some (N.of_uint u, r)
  end.

Definition parse_int (s : list ascii) : option (Z * list ascii) :=
  match s with
  | "-" :: r =>
      match parse_nat r with
      | Some (n, r') => Some (- Z.of_N n, r')
      | None => None
      end
  | _ =>
      match parse_nat s with
      | Some (n, r') => Some (Z.of_N n, r')
      | None => None
      end
  end.

Fixpoint strip_prefix (p s : list ascii) : option (list ascii) :=
  match p, s with
  | [], _ => Some s
  | a :: p', b :: s' => if Ascii.eqb a b then strip_prefix p' s' else None
  | _ :: _, [] => None
  end.

Definition lit (s : string) : list ascii := list_ascii_of_string s.

Definition float_chars (f : spec_float) : list ascii :=
  match f with
  | S754_nan => lit "NaN"
  | S754_infinity s => (if s then ["-"] else []) ++ lit "Infinity"
  | S754_zero s => (if s then ["-"] else []) ++ lit "0.0"
  | S754_finite s m e =>
      (if s then ["-"] else []) ++ nat_chars (N.pos m) ++ "p" :: int_chars e
  end.

(** After the sign: [Infinity], or digits followed by [.0] (a zero), by
    [p] and an exponent (a finite float), or by nothing (an int). *)
Definition parse_unsigned (neg : bool) (s : list ascii)
  : option (json * list ascii) :=
  match strip_prefix (lit "Infinity") s with
  | Some r => Some (JFloat (S754_infinity neg), r)
  | None =>
      match parse_nat s with
      | None => None
      | Some (n, "." :: "0" :: r) =>
          match n with
          | N0 => Some (JFloat (S754_zero neg), r)
          | _ => None
          end
      | Some (n, "p" :: r) =>
          match n, parse_int r with
          | N.pos m, Some (e, r') => Some (JFloat (S754_finite neg m e), r')
          | _, _ => None
          end
      | Some (n, r) => Some (JInt (if neg then - Z.of_N n else Z.of_N n), r)
      end
  end.

Definition parse_number (s : list ascii) : option (json * list ascii) :=
  match s with
  | "-" :: r => parse_unsigned true r
  | _ => parse_unsigned false s
  end.

Fixpoint escape (s : list ascii) : list ascii :=
  match s with
  | [] => []
  | c :: rest =>
      if Ascii.eqb c dquote || Ascii.eqb c "\"
      then "\" :: c :: escape rest
      else c :: escape rest
  end.

Definition str_chars (s : string) : list ascii :=
  dquote :: escape (list_ascii_of_string s) ++ [dquote].

(** The characters of a str up to its closing quote. *)
Fixpoint parse_str_body (s : list ascii) : option (list ascii * list ascii) :=
  match s with
  | [] => None
  | c :: rest =>
      if Ascii.eqb c dquote then Some ([], rest)
      else if Ascii.eqb c "\" then
        match rest with
        | c' :: rest' =>
            if Ascii.eqb c' dquote || Ascii.eqb c' "\" then
              match parse_str_body rest' with
              | Some (cs, r) => Some (c' :: cs, r)
              | None => None
              end
            else None
        | [] => None
        end
      else
        match parse_str_body rest with
        | Some (cs, r) => Some (c :: cs, r)
        | None => None
        end
  end.

Definition parse_str (s : list ascii) : option (string * list ascii) :=
  match parse_str_body s with
  | Some (cs, r) => Some (string_of_list_ascii cs, r)
  | None => None
  end.

Section Print.
Variable print : json -> list ascii.

Fixpoint print_items (items : list json) : list ascii :=
  match items with
  | [] => []
  | [v] => print v
  | v :: rest => print v ++ "," :: " " :: print_items rest
  end.

Definition print_field (kv : string * json) : list ascii :=
  str_chars (fst kv) ++ ":" :: " " :: print (snd kv).

Fixpoint print_fields (fields : list (string * json)) : list ascii :=
  match fields with
  | [] => []
  | [kv] => print_field kv
  | kv :: rest => print_field kv ++ "," :: " " :: print_fields rest
  end.
End Print.

Fixpoint print (v : json) : list ascii :=
  match v with
  | JNull => lit "null"
  | JBool true => lit "true"
  | JBool false => lit "false"
  | JInt n => int_chars n
  | JFloat f => float_chars f
  | JStr s => str_chars s
  | JArr items => "[" :: print_items print items ++ ["]"]
  | JObj fields => "{" :: print_fields print fields ++ ["}"]
  end.

(** Recursive descent; [fuel] bounds the nesting and the number of
    items read. *)
Fixpoint parse_value (fuel : nat) (s : list ascii) : option (json * list ascii) :=
  match fuel with
  | O => None
  | S fuel' =>
      match s with
      | "n" :: r =>
          match strip_prefix (lit "ull") r with
          | Some r' => Some (JNull, r') | None => None end
      | "t" :: r =>
          match strip_prefix (lit "rue") r with
          | Some r' => Some (JBool true, r') | None => None end
      | "f" :: r =>
          match strip_prefix (lit "alse") r with
          | Some r' => Some (JBool false, r') | None => None end
      | "N" :: r =>
          match strip_prefix (lit "aN") r with
          | Some r' => Some (JFloat S754_nan, r') | None => None end
      | dquote :: r =>
          match parse_str r with
          | Some (str, r') => Some (JStr str, r') | None => None end
      | "[" :: r =>
          match strip_prefix ["]"] r with
          | Some r' => Some (JArr [], r')
          | None =>
              match parse_items fuel' r with
              | Some (items, r') => Some (JArr items, r') | None => None end
          end
      | "{" :: r =>
          match strip_prefix ["}"] r with
          | Some r' => Some (JObj [], r')
          | None =>
              match parse_fields fuel' r with
              | Some (fields, r') => Some (JObj fields, r') | None => None end
          end
      | _ => parse_number s
      end
  end
with parse_items (fuel : nat) (s : list ascii)
  : option (list json * list ascii) :=
  match fuel with
  | O => None
  | S fuel' =>
      match parse_value fuel' s with
      | Some (v, "]" :: r) => Some ([v], r)
      | Some (v, "," :: " " :: r) =>
          match parse_items fuel' r with
          | Some (vs, r') => Some (v :: vs, r') | None => None end
      | _ => None
      end
  end
with parse_fields (fuel : nat) (s : list ascii)
  : option (list (string * json) * list ascii) :=
  match fuel with
  | O => None
  | S fuel' =>
      match s with
      | dquote :: s1 =>
          match parse_str s1 with
          | Some (k, ":" :: " " :: s2) =>
              match parse_value fuel' s2 with
              | Some (v, "}" :: r) => Some ([(k, v)], r)
              | Some (v, "," :: " " :: r) =>
                  match parse_fields fuel' r with
                  | Some (kvs, r') => Some ((k, v) :: kvs, r')
                  | None => None
                  end
              | _ => None
              end
          | _ => None
          end
      | _ => None
      end
  end.

Definition ref_dumps (v : json) : string := string_of_list_ascii (print v).

Definition ref_loads (s : string) : pyexc + json :=
  match parse_value (S (String.length s)) (list_ascii_of_string s) with
  | Some (v, []) => inr v
  | _ => inl JSONDecodeError
  end.

(** [int(s)] for a plain signed decimal literal. *)
Definition ref_int_of_str (s : string) : pyexc + Z :=
  match parse_int (list_ascii_of_string s) with
  | Some (n, []) => inr n
  | _ => inl ValueError
  end.
(** What may follow a number inside a document. *)
Definition delimited (rest : list ascii) : Prop :=
  rest = [] \/ exists r, rest = "," :: r \/ rest = "]" :: r \/ rest = "}" :: r.

Definition no_digit_head (rest : list ascii) : Prop :=
  match rest with
  | [] => True
  | c :: _ => digit_of c = None
  end.

Fixpoint size (v : json) : nat :=
  match v with
  | JArr items => S (list_sum (map (fun v => S (size v)) items))
  | JObj fields => S (list_sum (map (fun kv => S (size (snd kv))) fields))
  | _ => 1
  end.

Definition items_size (items : list json) : nat :=
  list_sum (map (fun v => S (size v)) items).
Definition fields_size (fields : list (string * json)) : nat :=
  list_sum (map (fun kv => S (size (snd kv))) fields).

(** [v], printed, is read back by any parser with fuel for it. *)
Definition reads_back (v : json) : Prop :=
  forall fuel rest, (size v <= fuel)%nat -> delimited rest ->
    parse_value fuel (print v ++ rest) = Some (v, rest).

End RefCodec.

(** ** Worked requests *)

(** An integer as a float. *)
Definition float_of_Z (n : Z) : spec_float :=
  match n with
  | 0 => S754_zero false
  | Z.pos p => S754_finite false p 0
  | Z.neg p => S754_finite true p 0
  end.

Definition circle (x y r : spec_float) : Obstacle.t :=
  {| Obstacle.shape := "circle"; Obstacle.x := x; Obstacle.y := y;
     Obstacle.radius := Some r;
     Obstacle.width := None; Obstacle.height := None |}.

(** A wall of 10 by 10 with the given obstacles. *)
Definition wall_of (obstacles : list Obstacle.t) : Wall.t :=
  {| Wall.width := float_of_Z 10; Wall.height := float_of_Z 10;
     Wall.obstacles := obstacles |}.

(** Identifiers as [str(uuid.uuid4())] yields them: two for walls, two
    for paths. *)
Definition w1 : string := "3f2b8c1e-5d4a-4e6f-9a7b-0c1d2e3f4a51".
Definition w2 : string := "9d8c7b6a-1f2e-4d3c-8b4a-5f6e7d8c9b02".
Definition p1 : string := "6a1b2c3d-4e5f-4a6b-8c7d-9e0f1a2b3c11".
Definition p2 : string := "0e9f8a7b-6c5d-4e4f-a3b2-c1d0e9f8a712".

(** The world after [wall] was created as [w1] in the empty world. *)
Definition world_with `{Codec} (wall : Wall.t) : world :=
  snd (create_wall w1 wall empty_world).

Definition plan_w1 (algorithm : string) : PathRequest.t :=
  {| PathRequest.wall_id := w1; PathRequest.algorithm := algorithm |}.

(** The path found on the empty grid: down the first column, then along
    the last row; 19 cells, 18 steps. *)
Definition open_path : list cell :=
  [(0, 0); (1, 0); (2, 0); (3, 0); (4, 0); (5, 0); (6, 0); (7, 0); (8, 0);
   (9, 0); (9, 1); (9, 2); (9, 3); (9, 4); (9, 5); (9, 6); (9, 7); (9, 8);
   (9, 9)].

(** One circle of radius 3 in the middle of the wall. *)
Definition big_circle : Obstacle.t :=
  circle (float_of_Z 5) (float_of_Z 5) (float_of_Z 3).

(** Two obstacles next to the goal corner: the goal cell is enclosed. *)
Definition enclosing : list Obstacle.t :=
  [circle (float_of_Z 8) (float_of_Z 9) (float_of_Z 1);
   circle (float_of_Z 9) (float_of_Z 8) (float_of_Z 1)].

(** The world of the empty wall [w1] after one plan [p1], and the same
    world after its cache entry is gone. *)
Definition world_planned `{Codec} : world :=
  snd (generate_path astar_spec p1 (plan_w1 "astar") (world_with (wall_of []))).

Definition world_evicted `{Codec} : world := evict p1 world_planned.

(** The same identifier in capitals. *)
Definition p1_upper : string := "6A1B2C3D-4E5F-4A6B-8C7D-9E0F1A2B3C11".

(** The uuids that [p1] and [p2] denote. *)
Definition p1_bytes : list N :=
  [106; 27; 44; 61; 78; 95; 74; 107; 140; 125; 158; 15; 26; 43; 60; 17]%N.
Definition p2_bytes : list N :=
  [14; 159; 138; 123; 108; 93; 78; 79; 163; 178; 193; 208; 233; 248; 167; 18]%N.

(** A wall of width -1 and height 0. *)
Definition flat_wall (obstacles : list Obstacle.t) : Wall.t :=
  {| Wall.width := float_of_Z (-1); Wall.height := float_of_Z 0;
     Wall.obstacles := obstacles |}.

(** A selector with a NUL character in it. *)
Definition nul_selector : string :=
  String "a" (String Ascii.zero (String "b" EmptyString)).

(** * Properties *)

(** ** The reference codec reads back what it prints *)

Module RefCodecFacts.
Import Decimal RefCodec.
Local Open Scope char_scope.
Local Open Scope list_scope.

Lemma delimited_no_digit rest : delimited rest -> no_digit_head rest.
Proof.
  intros [->|[r [->|[->| ->]]]]; simpl; auto.
Qed.

Lemma take_digits_chars u rest :
  no_digit_head rest -> take_digits (uint_chars u ++ rest) = (u, rest).
Proof.
  intros Hrest.
  induction u; simpl; try (rewrite IHu; reflexivity).
  destruct rest as [|c r]; simpl in *; [reflexivity|].
  now rewrite Hrest.
Qed.

Lemma to_uint_nonnil n : N.to_uint n <> Nil.
Proof.
  destruct n as [|p]; simpl; [discriminate|].
  apply DecimalPos.Unsigned.to_uint_nonnil.
Qed.

Lemma parse_nat_chars n rest :
  no_digit_head rest -> parse_nat (nat_chars n ++ rest) = Some (n, rest).
Proof.
  intros Hrest. unfold parse_nat, nat_chars.
  rewrite take_digits_chars by assumption.
  pose proof (to_uint_nonnil n) as Hnil.
  pose proof (DecimalN.Unsigned.of_to n) as Hof.
  destruct (N.to_uint n); try congruence; now rewrite Hof.
Qed.

(** The first character of a printed number is a digit. *)
Lemma nat_chars_head n :
  exists c cs, nat_chars n = c :: cs /\ digit_of c <> None.
Proof.
  unfold nat_chars. pose proof (to_uint_nonnil n) as Hnil.
  destruct (N.to_uint n); try congruence; simpl;
    eexists _, _; (split; [reflexivity|discriminate]).
Qed.

Ltac digit_cases c H :=
  destruct c as [[] [] [] [] [] [] [] []]; simpl in H; try congruence.

Lemma parse_int_chars n rest :
  no_digit_head rest -> parse_int (int_chars n ++ rest) = Some (n, rest).
Proof.
  intros Hrest.
  assert (Hnn : forall m, parse_int (nat_chars m ++ rest) = Some (Z.of_N m, rest)).
  { intros m. destruct (nat_chars_head m) as (c & cs & Hc & Hd).
    unfold parse_int. pose proof (parse_nat_chars m rest Hrest) as Hp.
    rewrite Hc in *. rewrite <- ?app_comm_cons in *.
    digit_cases c Hd; rewrite Hp; reflexivity. }
  destruct n as [|p|p].
  - apply (Hnn 0%N).
  - apply (Hnn (N.pos p)).
  - pose proof (parse_nat_chars (N.pos p) rest Hrest) as Hp.
    unfold int_chars, parse_int.
    change (("-" :: nat_chars (N.pos p)) ++ rest)
      with ("-" :: (nat_chars (N.pos p) ++ rest)).
    cbv beta iota. rewrite Hp. reflexivity.
Qed.

Lemma parse_str_body_escape cs rest :
  parse_str_body (escape cs ++ dquote :: rest) = Some (cs, rest).
Proof.
  induction cs as [|c cs IH]; simpl; [reflexivity|].
  destruct (Ascii.eqb c dquote) eqn:Hq; simpl.
  - apply Ascii.eqb_eq in Hq. subst c. simpl. rewrite IH. reflexivity.
  - destruct (Ascii.eqb c "\") eqn:Hb; simpl.
    + apply Ascii.eqb_eq in Hb. subst c. simpl. rewrite IH. reflexivity.
    + rewrite Hq, Hb, IH. reflexivity.
Qed.

Lemma parse_str_chars s rest :
  exists body, str_chars s ++ rest = dquote :: body
               /\ parse_str body = Some (s, rest).
Proof.
  exists (escape (list_ascii_of_string s) ++ dquote :: rest). split.
  - unfold str_chars. simpl. now rewrite <- app_assoc.
  - unfold parse_str.
    now rewrite parse_str_body_escape, string_of_list_ascii_of_string.
Qed.

Lemma parse_number_int n rest :
  delimited rest -> parse_number (int_chars n ++ rest) = Some (JInt n, rest).
Proof.
  intros Hd. pose proof (delimited_no_digit _ Hd) as Hnd.
  assert (Hun : forall neg m,
    parse_unsigned neg (nat_chars m ++ rest)
    = Some (JInt (if neg then - Z.of_N m else Z.of_N m), rest)).
  { intros neg m. unfold parse_unsigned.
    pose proof (parse_nat_chars m rest Hnd) as Hp.
    destruct (nat_chars_head m) as (c & cs & Hc & Hdg).
    rewrite Hc in *. rewrite <- ?app_comm_cons in *.
    assert (strip_prefix (lit "Infinity") (c :: cs ++ rest) = None) as ->
      by (digit_cases c Hdg; reflexivity).
    rewrite Hp.
    destruct Hd as [->|[r [->|[->| ->]]]]; reflexivity. }
  assert (Hnn : forall m,
    parse_number (nat_chars m ++ rest) = Some (JInt (Z.of_N m), rest)).
  { intros m. destruct (nat_chars_head m) as (c & cs & Hc & Hdg).
    unfold parse_number. pose proof (Hun false m) as Hp.
    rewrite Hc in *. rewrite <- ?app_comm_cons in *.
    digit_cases c Hdg; exact Hp. }
  destruct n as [|p|p].
  - apply (Hnn 0%N).
  - apply (Hnn (N.pos p)).
  - apply (Hun true (N.pos p)).
Qed.

Lemma parse_number_float f rest :
  delimited rest -> f <> S754_nan ->
  parse_number (float_chars f ++ rest) = Some (JFloat f, rest).
Proof.
  intros Hd Hnan. pose proof (delimited_no_digit _ Hd) as Hnd.
  destruct f as [s|s| |s m e]; [| | congruence |].
  - destruct s; reflexivity.
  - destruct s; reflexivity.
  - assert (Hun : parse_unsigned s (nat_chars (N.pos m) ++ "p" :: int_chars e ++ rest)
                  = Some (JFloat (S754_finite s m e), rest)).
    { unfold parse_unsigned.
      pose proof (parse_nat_chars (N.pos m) ("p" :: int_chars e ++ rest) eq_refl) as Hp.
      destruct (nat_chars_head (N.pos m)) as (c & cs & Hc & Hdg).
      rewrite Hc in *. rewrite <- ?app_comm_cons in *.
      assert (strip_prefix (lit "Infinity") (c :: cs ++ "p" :: int_chars e ++ rest) = None) as ->
        by (digit_cases c Hdg; reflexivity).
      rewrite Hp, parse_int_chars by assumption. reflexivity. }
    assert (Happ : forall sign : list ascii,
              (sign ++ nat_chars (N.pos m) ++ "p" :: int_chars e) ++ rest
              = sign ++ nat_chars (N.pos m) ++ "p" :: int_chars e ++ rest).
    { intros sign. now rewrite <- !app_assoc, <- app_comm_cons. }
    unfold float_chars. rewrite Happ. destruct s.
    + exact Hun.
    + change ([] ++ ?l) with l.
      destruct (nat_chars_head (N.pos m)) as (c & cs & Hc & Hdg).
      unfold parse_number. rewrite Hc in *. rewrite <- ?app_comm_cons in *.
      digit_cases c Hdg; exact Hun.
Qed.

Lemma spec_float_eq_nan f : f = S754_nan \/ f <> S754_nan.
Proof. destruct f; auto; right; discriminate. Qed.

(** Induction on documents, through the lists they nest. *)
Lemma json_rect_nested (P : json -> Prop) :
  P JNull -> (forall b, P (JBool b)) -> (forall n, P (JInt n)) ->
  (forall f, P (JFloat f)) -> (forall s, P (JStr s)) ->
  (forall items, Forall P items -> P (JArr items)) ->
  (forall fields, Forall (fun kv => P (snd kv)) fields -> P (JObj fields)) ->
  forall v, P v.
Proof.
  intros Hnull Hbool Hint Hfloat Hstr Harr Hobj.
  fix IH 1. intros [|b|n|f|s|items|fields].
  - exact Hnull.
  - apply Hbool.
  - apply Hint.
  - apply Hfloat.
  - apply Hstr.
  - apply Harr. induction items as [|v items IHitems];
      constructor; [apply IH|exact IHitems].
  - apply Hobj. induction fields as [|[k v] fields IHfields];
      constructor; [apply IH|exact IHfields].
Qed.

(** No document starts with a closing bracket. *)
Lemma print_head v :
  exists c cs, print v = c :: cs /\ Ascii.eqb "]" c = false.
Proof.
  destruct v as [|[]|n|f|s|items|fields]; simpl;
    try (eexists _, _; split; [reflexivity|reflexivity]).
  - assert (Hnn : forall m, exists c cs,
              nat_chars m = c :: cs /\ Ascii.eqb "]" c = false).
    { intros m. destruct (nat_chars_head m) as (c & cs & Hc & Hdg).
      exists c, cs. split; [assumption|]. digit_cases c Hdg; reflexivity. }
    destruct n; simpl; auto.
    eexists _, _; split; reflexivity.
  - destruct f as [[]|[]| |[] m e]; simpl;
      try (eexists _, _; split; [reflexivity|reflexivity]).
    destruct (nat_chars_head (N.pos m)) as (c & cs & Hc & Hdg).
    rewrite Hc. simpl. exists c. eexists. split; [reflexivity|].
    digit_cases c Hdg; reflexivity.
Qed.

Lemma print_items_cons v v' items tail :
  print_items print (v :: v' :: items) ++ tail
  = print v ++ "," :: " " :: (print_items print (v' :: items) ++ tail).
Proof.
  change (print_items print (v :: v' :: items))
    with (print v ++ "," :: " " :: print_items print (v' :: items)).
  now rewrite <- app_assoc.
Qed.

Lemma print_fields_one k v tail :
  print_fields print [(k, v)] ++ tail
  = str_chars k ++ ":" :: " " :: (print v ++ tail).
Proof.
  change (print_fields print [(k, v)])
    with (str_chars k ++ ":" :: " " :: print v).
  now rewrite <- app_assoc.
Qed.

Lemma print_fields_cons k v kv' fields tail :
  print_fields print ((k, v) :: kv' :: fields) ++ tail
  = str_chars k ++ ":" :: " "
      :: (print v ++ "," :: " " :: (print_fields print (kv' :: fields) ++ tail)).
Proof.
  change (print_fields print ((k, v) :: kv' :: fields))
    with ((str_chars k ++ ":" :: " " :: print v)
            ++ "," :: " " :: print_fields print (kv' :: fields)).
  rewrite <- !app_assoc. reflexivity.
Qed.

Lemma parse_items_print items :
  Forall reads_back items -> items <> [] ->
  forall fuel rest, (items_size items <= fuel)%nat ->
    parse_items fuel (print_items print items ++ "]" :: rest)
    = Some (items, rest).
Proof.
  induction 1 as [|v items Hv Hitems IH]; [congruence|].
  intros _ fuel rest Hfuel. unfold items_size in Hfuel. simpl in Hfuel.
  destruct fuel as [|fuel]; [lia|].
  unfold reads_back in Hv.
  destruct items as [|v' items'].
  - simpl. rewrite Hv; [reflexivity|lia|].
    right. eexists. right. left. reflexivity.
  - rewrite print_items_cons.
    cbn [parse_items]. rewrite Hv; [|lia|].
    2:{ right. eexists. left. reflexivity. }
    rewrite IH; [reflexivity|congruence|].
    unfold items_size. simpl in *. lia.
Qed.

Lemma parse_fields_print fields :
  Forall (fun kv => reads_back (snd kv)) fields -> fields <> [] ->
  forall fuel rest, (fields_size fields <= fuel)%nat ->
    parse_fields fuel (print_fields print fields ++ "}" :: rest)
    = Some (fields, rest).
Proof.
  induction 1 as [|[k v] fields Hv Hfields IH]; [congruence|].
  intros _ fuel rest Hfuel. unfold fields_size in Hfuel. simpl in Hfuel.
  destruct fuel as [|fuel]; [lia|].
  unfold reads_back in Hv. simpl in Hv.
  destruct fields as [|kv' fields'].
  - rewrite print_fields_one.
    destruct (parse_str_chars k (":" :: " " :: (print v ++ "}" :: rest)))
      as (body & Hbody & Hparse).
    rewrite Hbody.
    cbn [parse_fields]. rewrite Hparse. rewrite Hv; [reflexivity|lia|].
    right. eexists. right. right. reflexivity.
  - rewrite print_fields_cons.
    destruct (parse_str_chars k
                (":" :: " " :: (print v ++ "," :: " "
                   :: (print_fields print (kv' :: fields') ++ "}" :: rest))))
      as (body & Hbody & Hparse).
    rewrite Hbody.
    cbn [parse_fields]. rewrite Hparse. rewrite Hv; [|lia|].
    2:{ right. eexists. left. reflexivity. }
    rewrite IH; [reflexivity|congruence|].
    unfold fields_size. simpl in *. lia.
Qed.

Lemma parse_value_number fuel c cs :
  digit_of c <> None \/ c = "-" \/ c = "I" ->
  parse_value (S fuel) (c :: cs) = parse_number (c :: cs).
Proof.
  intros [Hd|[->| ->]]; [|reflexivity|reflexivity].
  digit_cases c Hd; reflexivity.
Qed.

Lemma print_items_head v items tail :
  strip_prefix ["]"] (print_items print (v :: items) ++ tail) = None.
Proof.
  destruct (print_head v) as (c & cs & Hc & Hne).
  assert (Hstrip : forall t, strip_prefix ["]"] ((c :: cs) ++ t) = None).
  { intros t. change (strip_prefix ["]"] ((c :: cs) ++ t))
      with (if Ascii.eqb "]" c then Some (cs ++ t) else None).
    now rewrite Hne. }
  destruct items as [|v' items];
    [change (print_items print [v]) with (print v)|rewrite print_items_cons];
    rewrite Hc; apply Hstrip.
Qed.

Theorem print_reads_back v : reads_back v.
Proof.
  induction v as [|b|n|f|s|items IH|fields IH] using json_rect_nested;
    intros fuel rest Hfuel Hrest; (destruct fuel as [|fuel]; [simpl in Hfuel; lia|]).
  - reflexivity.
  - destruct b; reflexivity.
  - rewrite <- (parse_number_int n rest Hrest). simpl print.
    destruct n as [|p|p]; try reflexivity.
    destruct (nat_chars_head (N.pos p)) as (c & cs & Hc & Hd).
    change (int_chars (Z.pos p)) with (nat_chars (N.pos p)).
    rewrite Hc. apply parse_value_number. now left.
  - destruct (spec_float_eq_nan f) as [->|Hnan]; [reflexivity|].
    rewrite <- (parse_number_float f rest Hrest Hnan). simpl print.
    destruct f as [[]|[]| |[] m e]; try reflexivity; try congruence.
    destruct (nat_chars_head (N.pos m)) as (c & cs & Hc & Hd).
    unfold float_chars. rewrite Hc. apply parse_value_number. now left.
  - destruct (parse_str_chars s rest) as (body & Hbody & Hparse).
    simpl print. rewrite Hbody. cbn [parse_value]. now rewrite Hparse.
  - destruct items as [|v items]; [reflexivity|].
    change (print (JArr (v :: items)) ++ rest)
      with ("[" :: ((print_items print (v :: items) ++ ["]"]) ++ rest)).
    rewrite <- app_assoc. change (["]"] ++ rest) with ("]" :: rest).
    cbn [parse_value].
    rewrite print_items_head.
    rewrite (parse_items_print (v :: items) IH); [reflexivity|congruence|].
    simpl in Hfuel. unfold items_size. simpl. lia.
  - destruct fields as [|[k v] fields]; [reflexivity|].
    change (print (JObj ((k, v) :: fields)) ++ rest)
      with ("{" :: ((print_fields print ((k, v) :: fields) ++ ["}"]) ++ rest)).
    rewrite <- app_assoc. change (["}"] ++ rest) with ("}" :: rest).
    cbn [parse_value].
    assert (strip_prefix ["}"]
              (print_fields print ((k, v) :: fields) ++ "}" :: rest) = None) as ->.
    { destruct fields as [|kv' fields];
        [rewrite print_fields_one|destruct kv'; rewrite print_fields_cons];
        reflexivity. }
    rewrite (parse_fields_print ((k, v) :: fields) IH); [reflexivity|congruence|].
    simpl in Hfuel. unfold fields_size. simpl. lia.
Qed.

Lemma print_items_length items :
  Forall (fun v => (size v <= length (print v))%nat) items ->
  (items_size items <= S (length (print_items print items)))%nat.
Proof.
  induction 1 as [|v items Hv Hitems IH]; [unfold items_size; simpl; lia|].
  destruct items as [|v' items'].
  - unfold items_size. simpl. lia.
  - change (print_items print (v :: v' :: items'))
      with (print v ++ "," :: " " :: print_items print (v' :: items')).
    rewrite length_app. unfold items_size in *. simpl in *. lia.
Qed.

Lemma print_fields_length fields :
  Forall (fun kv => (size (snd kv) <= length (print (snd kv)))%nat) fields ->
  (fields_size fields <= S (length (print_fields print fields)))%nat.
Proof.
  induction 1 as [|[k v] fields Hv Hfields IH]; [unfold fields_size; simpl; lia|].
  simpl in Hv.
  destruct fields as [|kv' fields'].
  - change (print_fields print [(k, v)])
      with (str_chars k ++ ":" :: " " :: print v).
    rewrite length_app. unfold fields_size. simpl. lia.
  - change (print_fields print ((k, v) :: kv' :: fields'))
      with ((str_chars k ++ ":" :: " " :: print v)
              ++ "," :: " " :: print_fields print (kv' :: fields')).
    rewrite !length_app. unfold fields_size in *. simpl in *. lia.
Qed.

Lemma size_le_length v : (size v <= length (print v))%nat.
Proof.
  induction v as [|b|n|f|s|items IH|fields IH] using json_rect_nested.
  - simpl. lia.
  - destruct b; simpl; lia.
  - destruct (print_head (JInt n)) as (c & cs & -> & _). simpl. lia.
  - destruct (print_head (JFloat f)) as (c & cs & -> & _). simpl. lia.
  - simpl. lia.
  - pose proof (print_items_length items IH) as Hlen.
    change (print (JArr items)) with ("[" :: (print_items print items ++ ["]"])).
    cbn [length]. rewrite length_app. unfold items_size in Hlen. simpl. lia.
  - pose proof (print_fields_length fields IH) as Hlen.
    change (print (JObj fields)) with ("{" :: (print_fields print fields ++ ["}"])).
    cbn [length]. rewrite length_app. unfold fields_size in Hlen. simpl. lia.
Qed.

Lemma length_string_of_list_ascii cs :
  String.length (string_of_list_ascii cs) = length cs.
Proof. induction cs; simpl; congruence. Qed.

(** The round trip of the reference codec, on every document. *)
Theorem ref_loads_dumps v : ref_loads (ref_dumps v) = inr v.
Proof.
  unfold ref_loads, ref_dumps.
  rewrite list_ascii_of_string_of_list_ascii, length_string_of_list_ascii.
  pose proof (print_reads_back v (S (length (print v))) []) as Hrb.
  rewrite app_nil_r in Hrb. rewrite Hrb; [reflexivity| |now left].
  pose proof (size_le_length v). lia.
Qed.

Lemma ref_dumps_nonempty v : ref_dumps v <> EmptyString.
Proof.
  unfold ref_dumps. destruct (print_head v) as (c & cs & -> & _).
  discriminate.
Qed.
End RefCodecFacts.

#[global] Instance ref_codec : Codec := {|
  dumps := RefCodec.ref_dumps;
  loads := RefCodec.ref_loads;
  int_of_str := RefCodec.ref_int_of_str;
  loads_dumps := fun v _ => RefCodecFacts.ref_loads_dumps v;
  dumps_nonempty := RefCodecFacts.ref_dumps_nonempty;
|}.

(** * Properties of the service *)

(** ** Redis keys *)

Lemma list_ascii_of_string_append (a b : string) :
  list_ascii_of_string (a +:+ b)
  = list_ascii_of_string a ++ list_ascii_of_string b.
Proof.
  induction a as [|c a IH]; [reflexivity|].
  change (String c a +:+ b) with (String c (a +:+ b)).
  cbn [list_ascii_of_string]. now rewrite IH.
Qed.

Lemma list_ascii_of_string_inj (a b : string) :
  list_ascii_of_string a = list_ascii_of_string b -> a = b.
Proof.
  intros Heq.
  rewrite <- (string_of_list_ascii_of_string a),
          <- (string_of_list_ascii_of_string b).
  now rewrite Heq.
Qed.

(** Distinct walls have distinct keys. *)
Lemma wall_key_inj (a b : string) : wall_key a = wall_key b -> a = b.
Proof.
  unfold wall_key. intros Heq.
  apply (inj (String.append "wall:")) in Heq.
  apply (f_equal list_ascii_of_string) in Heq.
  rewrite !list_ascii_of_string_append in Heq.
  apply app_inv_tail in Heq. now apply list_ascii_of_string_inj.
Qed.

Lemma path_key_inj (a b : string) : path_key a = path_key b -> a = b.
Proof. unfold path_key. apply (inj (String.append "path:")). Qed.

(** No path key is a wall key. *)
Lemma path_key_not_wall_key (p w : string) : path_key p <> wall_key w.
Proof.
  unfold path_key, wall_key. cbv [String.append]. discriminate.
Qed.

(** ** Documents written by the service are Python values *)

Lemma obstacles_doc_wf (obstacles : list Obstacle.t) :
  json_wf (obstacles_doc obstacles) = true.
Proof.
  unfold obstacles_doc. cbn [json_wf].
  induction obstacles as [|o rest IH]; [reflexivity|].
  cbn [map forallb]. rewrite IH, andb_true_r.
  destruct o as [s x y [r|] [w|] [h|]]; reflexivity.
Qed.

Lemma path_doc_wf (path : list cell) : json_wf (path_doc path) = true.
Proof.
  unfold path_doc. cbn [json_wf].
  induction path as [|c rest IH]; [reflexivity|].
  cbn [map forallb]. now rewrite IH.
Qed.

(** ** Rasterisation of a wall's obstacles *)

Section Rasterisation.
Context `{Codec}.

Lemma mark_obstacle (grid : list (list Z)) (obs : Obstacle.t) :
  mark grid (obstacle_dict obs)
  = do c <- anchor obs;
    inr (if in_grid (fst c) (snd c)
         then set_cell grid (fst c) (snd c) else grid).
Proof.
  unfold mark, anchor, obstacle_dict.
  destruct obs as [s x y r w h]. cbn.
  destruct (float_trunc x) as [e|x']; [reflexivity|]. cbn.
  destruct (float_trunc y) as [e|y']; reflexivity.
Qed.

Lemma rasterize_obstacles (obstacles : list Obstacle.t) :
  rasterize (obstacles_doc obstacles) = mark_cells empty_grid obstacles.
Proof.
  unfold rasterize, obstacles_doc. cbn [py_iter ebind].
  generalize empty_grid as grid.
  induction obstacles as [|obs rest IH]; intros grid; [reflexivity|].
  cbn [map mark_all mark_cells]. rewrite mark_obstacle.
  destruct (anchor obs) as [e|c]; [reflexivity|]. cbn [ebind]. apply IH.
Qed.

Lemma empty_grid_square : square empty_grid.
Proof.
  split; [reflexivity|]. unfold empty_grid.
  apply Forall_forall. intros row Hin.
  apply list_elem_of_In, repeat_spec in Hin. now subst.
Qed.

Lemma set_cell_square grid x y : square grid -> square (set_cell grid x y).
Proof.
  intros [Hlen Hrows]. unfold set_cell. split.
  - now rewrite length_alter.
  - apply Forall_alter; [exact Hrows|].
    intros row _ Hrow. now rewrite length_insert.
Qed.

Lemma grid_at_empty x y :
  grid_at empty_grid x y = if in_grid x y then Some 0 else None.
Proof.
  unfold grid_at, in_grid, grid_size.
  destruct (Z.leb_spec 0 x), (Z.leb_spec 0 y); cbn [andb]; try reflexivity;
    try (now rewrite andb_false_r).
  destruct (Z.ltb_spec x 10), (Z.ltb_spec y 10); cbn [andb].
  - assert (exists i j, Z.to_nat x = i /\ Z.to_nat y = j
                        /\ (i < 10)%nat /\ (j < 10)%nat) as (i & j & -> & -> & Hi & Hj).
    { exists (Z.to_nat x), (Z.to_nat y). repeat split; lia. }
    do 10 (destruct j as [|j]; [do 10 (destruct i as [|i]; [reflexivity|]); lia|]).
    lia.
  - unfold empty_grid, grid_size. rewrite (lookup_ge_None_2 _ (Z.to_nat y)); [reflexivity|].
    rewrite repeat_length. lia.
  - unfold empty_grid, grid_size.
    destruct (repeat _ _ !! Z.to_nat y) as [row|] eqn:Hrow; [|reflexivity].
    cbn. apply list_elem_of_lookup_2, list_elem_of_In, repeat_spec in Hrow.
    subst row. apply lookup_ge_None_2.
    rewrite repeat_length. lia.
  - unfold empty_grid, grid_size. rewrite (lookup_ge_None_2 _ (Z.to_nat y)); [reflexivity|].
    rewrite repeat_length. lia.
Qed.

Lemma grid_at_set_cell grid x y x' y' :
  square grid -> in_grid x y = true ->
  grid_at (set_cell grid x y) x' y'
  = if (x =? x') && (y =? y') then Some 1 else grid_at grid x' y'.
Proof.
  intros [Hlen Hrows] Hin. unfold in_grid, grid_size in *.
  apply andb_true_iff in Hin as [Hin Hy2]. apply andb_true_iff in Hin as [Hin Hy1].
  apply andb_true_iff in Hin as [Hx1 Hx2].
  apply Z.leb_le in Hx1, Hy1. apply Z.ltb_lt in Hx2, Hy2.
  change (Z.to_nat 10) with 10%nat in *.
  unfold grid_at, set_cell.
  destruct (Z.leb_spec 0 x') as [Hx'|Hx'], (Z.leb_spec 0 y') as [Hy'|Hy'];
    cbn [andb]; try (destruct (Z.eqb_spec x x'), (Z.eqb_spec y y'); cbn [andb];
                     try reflexivity; lia).
  destruct (Z.eqb_spec y y') as [<-|Hney].
  - rewrite list_lookup_alter_eq.
    destruct (grid !! Z.to_nat y) as [row|] eqn:Hrow.
    + assert (length row = 10%nat) as Hrowlen.
      { eapply Forall_forall in Hrows; [exact Hrows|].
        eapply list_elem_of_lookup_2, Hrow. }
      cbn. destruct (Z.eqb_spec x x') as [<-|Hnex]; cbn [andb].
      * apply list_lookup_insert_eq. lia.
      * apply list_lookup_insert_ne. lia.
    + apply lookup_ge_None_1 in Hrow. lia.
  - rewrite andb_false_r, list_lookup_alter_ne; [reflexivity|lia].
Qed.

Lemma mark_cells_spec (obstacles : list Obstacle.t) :
  forall grid grid', square grid ->
    mark_cells grid obstacles = inr grid' ->
    square grid'
    /\ forall x y,
         grid_at grid' x y
         = if in_grid x y && existsb (anchored_at x y) obstacles
           then Some 1 else grid_at grid x y.
Proof.
  induction obstacles as [|obs rest IH]; intros grid grid' Hsq Hmark.
  - injection Hmark as <-. split; [exact Hsq|].
    intros x y. now rewrite andb_false_r.
  - cbn [mark_cells] in Hmark. cbn [existsb]. unfold anchored_at at 1.
    destruct (anchor obs) as [e|[cx cy]]; [discriminate|].
    cbn [ebind fst snd] in *.
    destruct (in_grid cx cy) eqn:Hin.
    + apply IH in Hmark as [Hsq' Hat]; [|now apply set_cell_square].
      split; [exact Hsq'|]. intros x y. rewrite Hat, grid_at_set_cell by assumption.
      destruct (Z.eqb_spec cx x) as [->|], (Z.eqb_spec cy y) as [->|];
        cbn [andb orb]; try reflexivity.
      rewrite Hin. cbn [andb]. now destruct (existsb _ rest).
    + apply IH in Hmark as [Hsq' Hat]; [|exact Hsq].
      split; [exact Hsq'|]. intros x y. rewrite Hat.
      destruct (Z.eqb_spec cx x) as [->|], (Z.eqb_spec cy y) as [->|];
        cbn [andb orb]; try reflexivity.
      rewrite Hin. reflexivity.
Qed.

(** An obstacle that stands outside the grid is skipped: the grid is the
    one of the wall without it. *)
Lemma out_of_grid_obstacle_is_skipped
    (before after : list Obstacle.t) (obs : Obstacle.t) (c : cell) :
  anchor obs = inr c -> in_grid (fst c) (snd c) = false ->
  rasterize (obstacles_doc (before ++ obs :: after))
  = rasterize (obstacles_doc (before ++ after)).
Proof.
  intros Hanchor Hout. rewrite !rasterize_obstacles.
  generalize empty_grid as grid.
  induction before as [|first before IH]; intros grid.
  - cbn [app mark_cells]. rewrite Hanchor. cbn [ebind]. now rewrite Hout.
  - cbn [app mark_cells]. destruct (anchor first) as [e|d]; [reflexivity|].
    cbn [ebind]. apply IH.
Qed.

(** C2, as the code has it: an obstacle marks at most one cell, the cell
    [(int(x), int(y))] it stands in, when that cell lies in the grid; its
    shape and its radius are not read.  The grid has ten rows of ten
    cells, and a cell of it is occupied exactly when some obstacle stands
    in it. *)
Theorem rasterize_marks_anchor_cells
    (obstacles : list Obstacle.t) (grid : list (list Z)) :
  rasterize (obstacles_doc obstacles) = inr grid ->
  square grid
  /\ forall x y,
       grid_at grid x y
       = if in_grid x y
         then Some (if existsb (anchored_at x y) obstacles then 1 else 0)
         else None.
Proof.
  rewrite rasterize_obstacles. intros Hmark.
  apply mark_cells_spec in Hmark as [Hsq Hat]; [|apply empty_grid_square].
  split; [exact Hsq|]. intros x y. rewrite Hat, grid_at_empty.
  destruct (in_grid x y); [|reflexivity].
  cbn [andb]. now destruct (existsb _ obstacles).
Qed.


Lemma rasterized_square (obstacles : list Obstacle.t) (grid : list (list Z)) :
  rasterize (obstacles_doc obstacles) = inr grid -> square grid.
Proof.
  rewrite rasterize_obstacles. intros Hmark.
  now apply mark_cells_spec in Hmark as [Hsq _]; [|apply empty_grid_square].
Qed.

End Rasterisation.

Section ServiceFacts.
Context `{Codec}.
Variable astar : list (list Z) -> cell -> cell -> pyexc + option (list cell).

(** ** Identifiers as the database reads them *)

Lemma hex_value_not_nul (c : ascii) (h : N) :
  hex_value c = Some h -> Ascii.eqb Ascii.zero c = false.
Proof.
  destruct c as [[] [] [] [] [] [] [] []]; vm_compute; congruence.
Qed.

Lemma uuid_bytes_no_nul (todo : nat) :
  forall s bytes rest,
    uuid_bytes todo s = Some (bytes, rest) ->
    existsb (Ascii.eqb Ascii.zero) s = existsb (Ascii.eqb Ascii.zero) rest.
Proof.
  induction todo as [|todo IH]; intros s bytes rest.
  - intros [= _ <-]. reflexivity.
  - cbn [uuid_bytes]. destruct s as [|hi [|lo after]]; try discriminate.
    destruct (hex_value hi) as [h|] eqn:Hhi; [|discriminate].
    destruct (hex_value lo) as [l|] eqn:Hlo; [|discriminate].
    destruct (uuid_bytes todo _) as [[bs rest']|] eqn:Hrec; [|discriminate].
    intros [= _ <-]. apply IH in Hrec. cbn [existsb].
    rewrite (hex_value_not_nul _ _ Hhi), (hex_value_not_nul _ _ Hlo).
    cbn [orb]. rewrite <- Hrec. destruct after as [|c after]; [reflexivity|].
    destruct (Ascii.eqb_spec c "-") as [->|_]; cbn [andb]; [|reflexivity].
    destruct (Nat.even todo && negb (Nat.eqb todo 0)); reflexivity.
Qed.

(** A text that denotes a uuid has no NUL. *)
Lemma uuid_in_no_nul (text : string) (u : list N) :
  uuid_in text = Some u -> has_nul text = false.
Proof.
  unfold uuid_in, has_nul.
  destruct (list_ascii_of_string text) as [|c s]; [reflexivity|].
  destruct (Ascii.eqb_spec c "{") as [->|Hc]; cbn [tail].
  - destruct (uuid_bytes 16 s) as [[bytes rest]|] eqn:Hbytes; [|discriminate].
    case_bool_decide; [|discriminate]. subst rest. intros _.
    apply uuid_bytes_no_nul in Hbytes. cbn [existsb]. now rewrite Hbytes.
  - destruct (uuid_bytes 16 (c :: s)) as [[bytes rest]|] eqn:Hbytes;
      [|discriminate].
    case_bool_decide; [|discriminate]. subst rest. intros _.
    now apply uuid_bytes_no_nul in Hbytes.
Qed.

Lemma is_uuid_no_nul (text : string) : is_uuid text = true -> has_nul text = false.
Proof.
  unfold is_uuid. destruct (uuid_in text) as [u|] eqn:Hu; [|discriminate].
  intros _. now apply uuid_in_no_nul in Hu.
Qed.

Lemma fresh_uuid_no_nul (text : string) (ids : list string) :
  fresh_uuid text ids = true -> has_nul text = false.
Proof.
  unfold fresh_uuid. destruct (uuid_in text) as [u|] eqn:Hu; [|discriminate].
  intros _. now apply uuid_in_no_nul in Hu.
Qed.

(** A uuid that is new to a table is not one of its texts. *)
Lemma fresh_uuid_not_in (text : string) (ids : list string) :
  fresh_uuid text ids = true -> ~ In text ids.
Proof.
  unfold fresh_uuid. destruct (uuid_in text) as [u|] eqn:Hu; [|discriminate].
  intros Hfresh Hin. apply negb_true_iff in Hfresh.
  assert (existsb (same_uuid u) ids = true) as Htaken; [|congruence].
  apply existsb_exists. exists text. split; [exact Hin|].
  unfold same_uuid. now apply bool_decide_eq_true.
Qed.

Lemma stores_eq (st st' : world) :
  stores st' = stores st ->
  redis st' = redis st /\ walls st' = walls st /\ paths st' = paths st
  /\ robot_path st' = robot_path st.
Proof. unfold stores. intros [= -> -> -> ->]. auto. Qed.

(** ** The three statements *)

(** The INSERT of [create_wall] is accepted or refused; refused, it
    leaves every store as it was. *)
Lemma insert_wall_cases (row : wall_row) (st : world) :
  (accepts_wall (wr_id row) st = true
   /\ insert_wall row st
      = (inr tt, {| redis := redis st; walls := walls st ++ [row];
                    paths := paths st; robot_path := robot_path st;
                    aborted := false |}))
  \/ (accepts_wall (wr_id row) st = false
      /\ exists e st',
           insert_wall row st = (inl e, st')
           /\ stores st' = stores st
           /\ (aborted st = true -> aborted st' = true)
           /\ (e = ValueError \/ e = InFailedSqlTransaction
               \/ e = DataError \/ e = IntegrityError)).
Proof.
  unfold accepts_wall, insert_wall, fresh_uuid.
  destruct (has_nul (wr_id row)) eqn:Hnul.
  - right. split; [|eauto 8].
    destruct (uuid_in (wr_id row)) as [u|] eqn:Hu; [|apply andb_false_r].
    apply uuid_in_no_nul in Hu. congruence.
  - destruct (aborted st) eqn:Hab; [right; split; [reflexivity|eauto 8]|].
    destruct (uuid_in (wr_id row)) as [u|]; [|right; split; [reflexivity|]].
    + destruct (existsb _ _); [right; split; [reflexivity|]|left; auto].
      eexists _, _. split; [reflexivity|]. repeat split; auto.
    + eexists _, _. split; [reflexivity|]. repeat split; auto.
Qed.

(** The same for the INSERT of [generate_path]. *)
Lemma insert_path_cases path_id req path st :
  (accepts_plan path_id req st = true
   /\ insert_path (planned_row path_id req path) st
      = (inr tt, {| redis := redis st; walls := walls st;
                    paths := paths st ++ [planned_row path_id req path];
                    robot_path := robot_path st; aborted := false |}))
  \/ (accepts_plan path_id req st = false
      /\ exists e st',
           insert_path (planned_row path_id req path) st = (inl e, st')
           /\ stores st' = stores st
           /\ (aborted st = true -> aborted st' = true)
           /\ (e = ValueError \/ e = InFailedSqlTransaction
               \/ e = DataError \/ e = IntegrityError)).
Proof.
  unfold accepts_plan, insert_path, fresh_uuid, is_uuid.
  cbn [planned_row pr_id pr_wall_id pr_algorithm].
  destruct (has_nul (PathRequest.algorithm req)) eqn:Halg.
  { right. split; [reflexivity|]. rewrite orb_true_r. eauto 8. }
  destruct (has_nul path_id) eqn:Hp.
  { right. split; [|cbn [orb]; eauto 8].
    destruct (uuid_in path_id) as [u|] eqn:Hu; [|apply andb_false_r].
    apply uuid_in_no_nul in Hu. congruence. }
  destruct (has_nul (PathRequest.wall_id req)) eqn:Hw.
  { right. split; [|cbn [orb]; eauto 8].
    destruct (uuid_in (PathRequest.wall_id req)) as [u|] eqn:Hu;
      [|now rewrite andb_false_r].
    apply uuid_in_no_nul in Hu. congruence. }
  cbn [orb negb andb].
  destruct (aborted st) eqn:Hab; [right; split; [reflexivity|eauto 8]|].
  cbn [negb andb].
  destruct (uuid_in path_id) as [u|];
    destruct (uuid_in (PathRequest.wall_id req)) as [w|]; cbn [andb].
  - destruct (existsb _ _); [right; split; [reflexivity|]|left; auto].
    eexists _, _. split; [reflexivity|]. repeat split; auto.
  - right. split; [reflexivity|].
    eexists _, _. split; [reflexivity|]. repeat split; auto.
  - right. split; [reflexivity|].
    eexists _, _. split; [reflexivity|]. repeat split; auto.
  - right. split; [reflexivity|].
    eexists _, _. split; [reflexivity|]. repeat split; auto.
Qed.

(** The SELECT is answered, with the row of the uuid or with none, or
    refused. *)
Lemma select_path_cases (path_id : string) (st : world) :
  (has_nul path_id = false /\ aborted st = false
   /\ exists u, uuid_in path_id = Some u
                /\ select_path path_id st
                   = (inr (find (fun row => same_uuid u (pr_id row)) (paths st)),
                      st))
  \/ (exists e st',
        select_path path_id st = (inl e, st')
        /\ stores st' = stores st
        /\ (aborted st = true -> aborted st' = true)
        /\ select_error e
        /\ (aborted st = true \/ is_uuid path_id = false)).
Proof.
  unfold select_path, select_error, is_uuid.
  destruct (has_nul path_id) eqn:Hnul.
  - right. eexists _, _. split; [reflexivity|]. repeat split; auto.
    right. destruct (uuid_in path_id) as [u|] eqn:Hu; [|reflexivity].
    apply uuid_in_no_nul in Hu. congruence.
  - destruct (aborted st) eqn:Hab.
    + right. eexists _, _. split; [reflexivity|]. repeat split; auto.
    + destruct (uuid_in path_id) as [u|]; [left; eauto|right].
      eexists _, _. split; [reflexivity|]. repeat split; auto.
Qed.

(** ** What each handler does to the world *)

Lemma create_wall_cases wall_id wall st :
  (accepts_wall wall_id st = true
   /\ create_wall wall_id wall st
      = (inr (JObj [("wall_id", JStr wall_id)]),
         r_set (wall_key wall_id)
           (dumps (obstacles_doc (Wall.obstacles wall)))
           {| redis := redis st;
              walls := walls st ++ [{| wr_id := wall_id;
                                       wr_width := Wall.width wall;
                                       wr_height := Wall.height wall |}];
              paths := paths st; robot_path := robot_path st;
              aborted := false |}))
  \/ (accepts_wall wall_id st = false
      /\ exists e st',
           create_wall wall_id wall st = (inl (Uncaught e), st')
           /\ stores st' = stores st
           /\ (aborted st = true -> aborted st' = true)
           /\ (e = ValueError \/ e = InFailedSqlTransaction
               \/ e = DataError \/ e = IntegrityError)).
Proof.
  unfold create_wall.
  destruct (insert_wall_cases {| wr_id := wall_id; wr_width := Wall.width wall;
                                 wr_height := Wall.height wall |} st)
    as [[Hacc ->]|[Hacc (e & st' & -> & Hrest)]]; cbn [wr_id] in Hacc.
  - left. auto.
  - right. split; [exact Hacc|]. exists e, st'. split; [reflexivity|exact Hrest].
Qed.

(** [generate_path] returns exactly when the search yields a list and the
    INSERT is accepted. *)
Lemma generate_path_returns path_id req st response st1 :
  generate_path astar path_id req st = (inr response, st1) <->
  exists path,
    compute_path astar req st = inr path
    /\ accepts_plan path_id req st = true
    /\ response = planned_response path_id path
    /\ st1 = planned_world path_id req path st.
Proof.
  unfold generate_path, record_path.
  destruct (compute_path astar req st) as [e|path].
  - split; [discriminate|]. intros (path & Hp & _). discriminate.
  - destruct (insert_path_cases path_id req path st)
      as [[Hacc Hins]|[Hacc (e & st' & Hins & _)]];
      unfold planned_row in Hins; rewrite Hins.
    + split.
      * intros [= <- <-]. exists path. auto.
      * intros (path' & [= <-] & _ & -> & ->). reflexivity.
    + split; [discriminate|]. intros (path' & _ & Hacc' & _). congruence.
Qed.

(** Every failure of [generate_path] is the same generic 500, and writes
    to no store. *)
Lemma generate_path_fails path_id req st failed st1 :
  generate_path astar path_id req st = (inl failed, st1) ->
  stores st1 = stores st
  /\ (aborted st = true -> aborted st1 = true)
  /\ exists e, failed = HTTPException 500 (StrOf e).
Proof.
  unfold generate_path, record_path.
  destruct (compute_path astar req st) as [e|path].
  - intros [= <- <-]. eauto.
  - destruct (insert_path_cases path_id req path st)
      as [[Hacc Hins]|[Hacc (e & st' & Hins & Hst & Hab & _)]];
      unfold planned_row in Hins; rewrite Hins; [discriminate|].
    intros [= <- <-]. eauto.
Qed.

Lemma truthy_dumps (v : json) : truthy (Some (dumps v)) = Some (dumps v).
Proof.
  pose proof (dumps_nonempty v) as Hne. unfold truthy.
  destruct (dumps v) as [|c s]; [congruence|reflexivity].
Qed.

(** The outcomes of [get_path]: the row of the uuid, the 404, or the
    exception of the SELECT. *)
Lemma get_path_cases (path_id : string) (st : world) :
  (aborted st = false
   /\ exists u, uuid_in path_id = Some u
      /\ match find (fun row => same_uuid u (pr_id row)) (paths st) with
         | Some row =>
             get_path path_id st
             = (inr (JObj [("path", pr_path_json row);
                           ("metrics", pr_metrics_json row)]), st)
         | None =>
             get_path path_id st
             = (inl (HTTPException 404 (Message "Path not found")), st)
         end)
  \/ (exists e st',
        get_path path_id st = (inl (Uncaught e), st')
        /\ stores st' = stores st
        /\ (aborted st = true -> aborted st' = true)
        /\ select_error e
        /\ (aborted st = true \/ is_uuid path_id = false)).
Proof.
  unfold get_path.
  destruct (select_path_cases path_id st)
    as [(_ & Hab & u & Hu & ->)|(e & st' & -> & Hrest)].
  - left. split; [exact Hab|]. exists u. split; [exact Hu|].
    now destruct (find _ _).
  - right. exists e, st'. split; [reflexivity|exact Hrest].
Qed.

(** The outcomes of [execute_path]: the cached text is published without
    a statement; on a miss the outcome is that of the SELECT. *)
Lemma execute_path_cases (path_id : string) (st : world) :
  (exists text,
     truthy (r_get (path_key path_id) st) = Some text
     /\ execute_path path_id st
        = (inr (JObj [("status", JStr "sent")]), basic_publish text st))
  \/ (truthy (r_get (path_key path_id) st) = None
      /\ aborted st = false
      /\ exists u, uuid_in path_id = Some u
         /\ match find (fun row => same_uuid u (pr_id row)) (paths st) with
            | Some row =>
                execute_path path_id st
                = (inr (JObj [("status", JStr "sent")]),
                   basic_publish (dumps (pr_path_json row)) st)
            | None =>
                execute_path path_id st
                = (inl (HTTPException 404 (Message "Path not found")), st)
            end)
  \/ (truthy (r_get (path_key path_id) st) = None
      /\ exists e st',
           execute_path path_id st = (inl (Uncaught e), st')
           /\ stores st' = stores st
           /\ (aborted st = true -> aborted st' = true)
           /\ select_error e
           /\ (aborted st = true \/ is_uuid path_id = false)).
Proof.
  unfold execute_path.
  destruct (truthy (r_get (path_key path_id) st)) as [text|]; [left; eauto|].
  right.
  destruct (select_path_cases path_id st)
    as [(_ & Hab & u & Hu & ->)|(e & st' & -> & Hrest)].
  - left. split; [reflexivity|]. split; [exact Hab|]. exists u.
    split; [exact Hu|]. now destruct (find _ _).
  - right. split; [reflexivity|]. exists e, st'.
    split; [reflexivity|exact Hrest].
Qed.

(** What a request does to the world: it writes to no store (at most it
    leaves the connection aborted), or it publishes one message, or it
    creates the wall, or it stores the plan. *)
Lemma serve_effect (rq : request) (st : world) :
  (stores (snd (serve astar rq st)) = stores st
   /\ (aborted st = true -> aborted (snd (serve astar rq st)) = true))
  \/ (exists body, snd (serve astar rq st) = basic_publish body st)
  \/ (exists wall_id wall,
        rq = CreateWall wall_id wall
        /\ accepts_wall wall_id st = true
        /\ snd (serve astar rq st)
           = r_set (wall_key wall_id)
               (dumps (obstacles_doc (Wall.obstacles wall)))
               {| redis := redis st;
                  walls := walls st ++ [{| wr_id := wall_id;
                                           wr_width := Wall.width wall;
                                           wr_height := Wall.height wall |}];
                  paths := paths st; robot_path := robot_path st;
                  aborted := false |})
  \/ (exists path_id req path,
        rq = GeneratePath path_id req
        /\ compute_path astar req st = inr path
        /\ accepts_plan path_id req st = true
        /\ snd (serve astar rq st) = planned_world path_id req path st).
Proof.
  destruct rq as [w wall|p req|p| |p]; cbn [serve].
  - destruct (create_wall_cases w wall st)
      as [[Hacc ->]|[_ (e & st' & -> & Hst & Hab & _)]].
    + right. right. left. exists w, wall. auto.
    + left. auto.
  - destruct (generate_path astar p req st) as [[failed|response] st1] eqn:Hplan.
    + apply generate_path_fails in Hplan as (Hst & Hab & _). left. auto.
    + apply generate_path_returns in Hplan as (path & Hpath & Hacc & _ & ->).
      right. right. right. exists p, req, path. auto.
  - destruct (execute_path_cases p st)
      as [(text & _ & ->)|[(_ & _ & u & _ & Hrow)
                          |(_ & e & st' & -> & Hst & Hab & _)]].
    + right. left. eauto.
    + destruct (find _ _) as [row|]; rewrite Hrow.
      * right. left. eauto.
      * left. auto.
    + left. auto.
  - left. auto.
  - destruct (get_path_cases p st)
      as [(_ & u & _ & Hrow)|(e & st' & -> & Hst & Hab & _)].
    + destruct (find _ _) as [row|]; rewrite Hrow; left; auto.
    + left. auto.
Qed.

(** ** Walls, once created, stay as they were written *)

Lemma create_wall_registers wall_id wall st response st1 :
  create_wall wall_id wall st = (inr response, st1) ->
  response = JObj [("wall_id", JStr wall_id)]
  /\ registered wall_id (dumps (obstacles_doc (Wall.obstacles wall))) st1.
Proof.
  destruct (create_wall_cases wall_id wall st)
    as [[_ ->]|[_ (e & st' & -> & _)]]; [|discriminate].
  intros [= <- <-]. split; [reflexivity|]. split.
  - unfold r_get, r_set. cbn [redis]. apply lookup_insert_eq.
  - cbn [walls r_set]. rewrite map_app, existsb_app. cbn [map wr_id existsb].
    now rewrite String.eqb_refl, orb_true_r.
Qed.



(** The planner on a wall whose key holds the document of [obstacles]:
    the grid handed to the search is the one of that list. *)
Lemma compute_path_registered req obstacles st :
  r_get (wall_key (PathRequest.wall_id req)) st
  = Some (dumps (obstacles_doc obstacles)) ->
  compute_path astar req st
  = do grid <- rasterize (obstacles_doc obstacles);
    do path <- astar grid (0, 0) (grid_size - 1, grid_size - 1);
    match path with
    | None => inl TypeError
    | Some cells => inr cells
    end.
Proof.
  intros Hget. unfold compute_path, find_path. rewrite Hget. cbn [loads_opt].
  now rewrite loads_dumps by apply obstacles_doc_wf.
Qed.


(** ** Dispatch *)

Lemma truthy_some (o : option string) (text : string) :
  truthy o = Some text <-> o = Some text /\ text <> "".
Proof.
  unfold truthy. destruct o as [[|c s]|]; split;
    try discriminate; try (intros [? ?]; congruence).
  intros [= <-]. split; [reflexivity|discriminate].
Qed.

Lemma truthy_none (o : option string) :
  truthy o = None <-> o = None \/ o = Some "".
Proof.
  unfold truthy. destruct o as [[|c s]|]; split; auto;
    try discriminate; intros [?|?]; discriminate.
Qed.

Lemma find_uuid_some (u : list N) (rows : list path_row) (row : path_row) :
  find (fun r => same_uuid u (pr_id r)) rows = Some row ->
  In row rows /\ uuid_in (pr_id row) = Some u.
Proof.
  intros Hfind. apply find_some in Hfind as [Hin Hu].
  split; [exact Hin|]. unfold same_uuid in Hu. now apply bool_decide_eq_true in Hu.
Qed.

Lemma find_uuid_none (u : list N) (rows : list path_row) :
  find (fun r => same_uuid u (pr_id r)) rows = None <->
  Forall (fun r => uuid_in (pr_id r) <> Some u) rows.
Proof.
  induction rows as [|row rows IH]; cbn [find].
  - split; [constructor|reflexivity].
  - unfold same_uuid at 1. case_bool_decide as Hu.
    + split; [discriminate|]. intros Hall. now inversion Hall.
    + rewrite IH. split; [now constructor|]. intros Hall. now inversion Hall.
Qed.

(** C7: [execute_path] resolves the identifier in the cache first and in
    the store second.  A cached text is appended to the queue as it is and
    no statement is run.  On a cache miss the store is consulted: when it
    answers with a row of the uuid, the path of such a row is appended to
    the queue.  A request that fails has published nothing and has found
    nothing in the cache; it fails with the 404 "Path not found" exactly
    when the cache misses and the store, consulted, has no row of the
    uuid, and the world is then unchanged; every other failure is the
    exception by which the store refused the SELECT. *)
Theorem execute_path_resolves (st : world) (path_id : string) :
  (forall text,
     redis st !! path_key path_id = Some text -> text <> "" ->
     exists st1,
       execute_path path_id st = (inr (JObj [("status", JStr "sent")]), st1)
       /\ robot_path st1 = robot_path st ++ [text]
       /\ redis st1 = redis st /\ walls st1 = walls st
       /\ paths st1 = paths st /\ aborted st1 = aborted st)
  /\ (forall u,
        redis st !! path_key path_id = None
        \/ redis st !! path_key path_id = Some "" ->
        aborted st = false ->
        uuid_in path_id = Some u ->
        Exists (fun row => uuid_in (pr_id row) = Some u) (paths st) ->
        exists row st1,
          In row (paths st) /\ uuid_in (pr_id row) = Some u
          /\ execute_path path_id st
             = (inr (JObj [("status", JStr "sent")]), st1)
          /\ robot_path st1 = robot_path st ++ [dumps (pr_path_json row)]
          /\ redis st1 = redis st /\ walls st1 = walls st
          /\ paths st1 = paths st /\ aborted st1 = aborted st)
  /\ (forall failed st1,
        execute_path path_id st = (inl failed, st1) ->
        robot_path st1 = robot_path st
        /\ redis st1 = redis st /\ walls st1 = walls st /\ paths st1 = paths st
        /\ (redis st !! path_key path_id = None
            \/ redis st !! path_key path_id = Some "")
        /\ ((failed = HTTPException 404 (Message "Path not found")
             /\ st1 = st /\ aborted st = false
             /\ exists u, uuid_in path_id = Some u
                          /\ Forall (fun row => uuid_in (pr_id row) <> Some u)
                                    (paths st))
            \/ (exists e, failed = Uncaught e
                          /\ (e = ValueError \/ e = InFailedSqlTransaction
                              \/ e = DataError)
                          /\ (aborted st = true \/ uuid_in path_id = None))))
  /\ (forall u,
        redis st !! path_key path_id = None
        \/ redis st !! path_key path_id = Some "" ->
        aborted st = false ->
        uuid_in path_id = Some u ->
        Forall (fun row => uuid_in (pr_id row) <> Some u) (paths st) ->
        execute_path path_id st
        = (inl (HTTPException 404 (Message "Path not found")), st)).
Proof.
  pose proof (execute_path_cases path_id st) as Hcases.
  unfold r_get in Hcases.
  split; [|split; [|split]].
  - intros text Hget Hne.
    destruct Hcases as [(text' & Hhit & ->)|[(Hmiss & _)|(Hmiss & _)]].
    + apply truthy_some in Hhit as [Hhit _].
      assert (text' = text) as -> by congruence.
      eexists. split; [reflexivity|]. repeat split.
    + apply truthy_none in Hmiss as [Hmiss|Hmiss]; congruence.
    + apply truthy_none in Hmiss as [Hmiss|Hmiss]; congruence.
  - intros u Hmiss Hab Hu Hrow.
    destruct Hcases as [(text & Hhit & _)|[(_ & _ & u' & Hu' & Hfind)
                                          |(_ & e & st' & _ & _ & _ & _ & Hwhy)]].
    + apply truthy_some in Hhit as [Hhit Hne].
      destruct Hmiss as [Hmiss|Hmiss]; congruence.
    + assert (u' = u) as -> by congruence.
      destruct (find _ _) as [row|] eqn:Hfound.
      * apply find_uuid_some in Hfound as [Hin Hid].
        exists row. eexists. split; [exact Hin|]. split; [exact Hid|].
        split; [exact Hfind|]. repeat split.
      * apply find_uuid_none in Hfound. exfalso.
        apply Exists_exists in Hrow as (row & Hin & Hid).
        eapply Forall_forall in Hfound; [|exact Hin]. contradiction.
    + unfold is_uuid in Hwhy. rewrite Hu in Hwhy.
      destruct Hwhy; congruence.
  - intros failed st1 Hfail.
    destruct Hcases as [(text & _ & Hrun)|[(Hmiss & Hab & u & Hu & Hfind)
                                          |(Hmiss & e & st' & Hrun & Hst & _ & He & Hwhy)]].
    + rewrite Hrun in Hfail. discriminate.
    + apply truthy_none in Hmiss.
      destruct (find _ _) as [row|] eqn:Hfound; rewrite Hfind in Hfail;
        [discriminate|].
      injection Hfail as <- <-. repeat split; try assumption.
      left. repeat split; try assumption.
      exists u. split; [exact Hu|]. now apply find_uuid_none.
    + apply truthy_none in Hmiss. rewrite Hrun in Hfail.
      injection Hfail as <- <-.
      apply stores_eq in Hst as (Hr & Hw & Hp & Hq).
      repeat split; try assumption.
      right. exists e. split; [reflexivity|]. split; [exact He|].
      unfold is_uuid in Hwhy. destruct Hwhy as [Hwhy|Hwhy]; [now left|right].
      now destruct (uuid_in path_id).
  - intros u Hmiss Hab Hu Hnone.
    destruct Hcases as [(text & Hhit & _)|[(_ & _ & u' & Hu' & Hfind)
                                          |(_ & e & st' & _ & _ & _ & _ & Hwhy)]].
    + apply truthy_some in Hhit as [Hhit Hne].
      destruct Hmiss as [Hmiss|Hmiss]; congruence.
    + assert (u' = u) as -> by congruence.
      apply find_uuid_none in Hnone. now rewrite Hnone in Hfind.
    + unfold is_uuid in Hwhy. rewrite Hu in Hwhy.
      destruct Hwhy; congruence.
Qed.

(** ** Planning *)

Lemma find_uuid_app (u : list N) (rows : list path_row) (row : path_row) :
  existsb (same_uuid u) (map pr_id rows) = false ->
  uuid_in (pr_id row) = Some u ->
  find (fun r => same_uuid u (pr_id r)) (rows ++ [row]) = Some row.
Proof.
  intros Hfresh Hu. induction rows as [|first rows IH]; cbn [app find].
  - unfold same_uuid. now rewrite bool_decide_eq_true_2.
  - cbn [map existsb] in Hfresh. apply orb_false_iff in Hfresh as [-> Hrows].
    now apply IH.
Qed.

(** The row of a plan is the one its identifier selects. *)
Lemma select_path_planned path_id req path st :
  accepts_plan path_id req st = true ->
  select_path path_id (planned_world path_id req path st)
  = (inr (Some (planned_row path_id req path)),
     planned_world path_id req path st).
Proof.
  unfold accepts_plan. intros Hacc.
  apply andb_true_iff in Hacc as [_ Hfresh].
  pose proof (fresh_uuid_no_nul _ _ Hfresh) as Hnul.
  unfold fresh_uuid in Hfresh.
  destruct (uuid_in path_id) as [u|] eqn:Hu; [|discriminate].
  apply negb_true_iff in Hfresh.
  unfold select_path. rewrite Hnul, Hu. cbn [planned_world r_set aborted paths].
  now rewrite (find_uuid_app u (paths st) (planned_row path_id req path) Hfresh Hu).
Qed.

(** What the planner reads for a wall is not touched by planning. *)
Lemma compute_path_planned path_id req path req' st :
  compute_path astar req' (planned_world path_id req path st)
  = compute_path astar req' st.
Proof.
  unfold compute_path, planned_world, r_get, r_set. cbn [redis].
  rewrite lookup_insert_ne; [reflexivity|apply path_key_not_wall_key].
Qed.

(** C8, as the code has it: after a successful plan the row of the store
    has the identifier, the path and the metrics that were returned, and
    [get_path] reads them back; the cache entry of the identifier is the
    serialised path alone, and it reads back as the same path. *)
Theorem planned_path_in_store_and_cache
    (st : world) (path_id : string) (req : PathRequest.t)
    (response : json) (st1 : world) :
  generate_path astar path_id req st = (inr response, st1) ->
  exists (path : list cell) (row : path_row),
    response = planned_response path_id path
    /\ select_path path_id st1 = (inr (Some row), st1)
    /\ pr_id row = path_id
    /\ Some (pr_path_json row) = json_field "path" response
    /\ Some (pr_metrics_json row) = json_field "metrics" response
    /\ get_path path_id st1
       = (inr (JObj [("path", path_doc path); ("metrics", metrics_doc path)]), st1)
    /\ r_get (path_key path_id) st1 = Some (dumps (path_doc path))
    /\ loads_opt (r_get (path_key path_id) st1) = inr (path_doc path)
    /\ Some (path_doc path) = json_field "path" response.
Proof.
  intros Hplan. apply generate_path_returns in Hplan
    as (path & Hpath & Hacc & -> & ->).
  pose proof (select_path_planned path_id req path st Hacc) as Hrow.
  assert (r_get (path_key path_id) (planned_world path_id req path st)
          = Some (dumps (path_doc path))) as Hget.
  { unfold r_get, planned_world, r_set. cbn [redis]. apply lookup_insert_eq. }
  exists path, (planned_row path_id req path).
  repeat split; try reflexivity; try assumption.
  - unfold get_path. now rewrite Hrow.
  - rewrite Hget. cbn [loads_opt]. apply loads_dumps, path_doc_wf.
Qed.

(** C1, as the code has it: every plan request computes and persists a
    plan of its own.  Of two successive requests for the same wall that
    both return, the second has another identifier than the first, the
    same path and the same metrics, and the store has gained two rows. *)
Theorem repeated_plan_is_a_new_plan
    (st : world) (req : PathRequest.t) (path_id1 path_id2 : string)
    (response1 response2 : json) (st1 st2 : world) :
  generate_path astar path_id1 req st = (inr response1, st1) ->
  generate_path astar path_id2 req st1 = (inr response2, st2) ->
  path_id1 <> path_id2
  /\ json_field "path_id" response1 = Some (JStr path_id1)
  /\ json_field "path_id" response2 = Some (JStr path_id2)
  /\ json_field "path" response2 = json_field "path" response1
  /\ json_field "metrics" response2 = json_field "metrics" response1
  /\ exists path,
       paths st2 = paths st ++ [planned_row path_id1 req path;
                                planned_row path_id2 req path].
Proof.
  intros Hfirst Hsecond.
  apply generate_path_returns in Hfirst as (path & Hpath & Hacc & -> & ->).
  apply generate_path_returns in Hsecond as (path' & Hpath' & Hacc' & -> & ->).
  rewrite compute_path_planned, Hpath in Hpath'. injection Hpath' as <-.
  repeat split; try reflexivity.
  - intros <-. unfold accepts_plan in Hacc'.
    apply andb_true_iff in Hacc' as [_ Hfresh].
    apply fresh_uuid_not_in in Hfresh. apply Hfresh.
    unfold planned_world. cbn [paths r_set]. rewrite map_app.
    apply in_or_app. right. now left.
  - exists path. unfold planned_world. cbn [paths r_set].
    now rewrite <- app_assoc.
Qed.

(** ** What a plan request does not read *)

(** The response of [generate_path] is decided by Redis, by the
    identifiers of [paths] and by the state of the connection. *)
Lemma generate_path_reads path_id req st st' :
  redis st = redis st' -> map pr_id (paths st) = map pr_id (paths st') ->
  aborted st = aborted st' ->
  fst (generate_path astar path_id req st)
  = fst (generate_path astar path_id req st').
Proof.
  intros Hredis Hpaths Hab.
  unfold generate_path, compute_path, record_path, insert_path, r_get.
  cbn [pr_id pr_wall_id pr_algorithm]. rewrite Hredis, Hpaths, Hab.
  destruct (do wall_obstacles <- _; _) as [e|path]; [reflexivity|].
  destruct (_ || _); [reflexivity|].
  destruct (aborted st'); [reflexivity|].
  destruct (uuid_in path_id) as [u|]; [|reflexivity].
  destruct (uuid_in (PathRequest.wall_id req)) as [w|]; [|reflexivity].
  destruct (existsb _ _); reflexivity.
Qed.

(** C4, as the code has it: the width and the height of a wall are stored
    and never checked.  [create_wall] answers the same for walls that
    differ only in them; when its INSERT is accepted it returns, whatever
    they are, and the row of the wall holds them as they were given.  The
    planner does not read them: the grid it hands to the search has ten
    rows of ten cells and is the one of the obstacles, and a plan request
    answers the same for the two walls. *)
Theorem wall_dimensions_are_not_checked
    (st : world) (wall_id : string) (wall wall' : Wall.t) :
  Wall.obstacles wall = Wall.obstacles wall' ->
  fst (create_wall wall_id wall st) = fst (create_wall wall_id wall' st)
  /\ (aborted st = false ->
      fresh_uuid wall_id (map wr_id (walls st)) = true ->
      fst (create_wall wall_id wall st) = inr (JObj [("wall_id", JStr wall_id)])
      /\ walls (snd (create_wall wall_id wall st))
         = walls st ++ [{| wr_id := wall_id;
                           wr_width := Wall.width wall;
                           wr_height := Wall.height wall |}]
      /\ forall req,
           PathRequest.wall_id req = wall_id ->
           match rasterize (obstacles_doc (Wall.obstacles wall)) with
           | inl e =>
               compute_path astar req (snd (create_wall wall_id wall st))
               = inl e
           | inr grid =>
               square grid
               /\ compute_path astar req (snd (create_wall wall_id wall st))
                  = (do path <- astar grid (0, 0) (grid_size - 1, grid_size - 1);
                     match path with
                     | None => inl TypeError
                     | Some cells => inr cells
                     end)
           end)
  /\ forall path_id req,
       fst (generate_path astar path_id req (snd (create_wall wall_id wall st)))
       = fst (generate_path astar path_id req (snd (create_wall wall_id wall' st))).
Proof.
  intros Hobs.
  destruct (create_wall_cases wall_id wall st)
    as [[Hacc Hrun]|[Hacc (e & st1 & Hrun & Hst & Hab & _)]];
    destruct (create_wall_cases wall_id wall' st)
      as [[Hacc' Hrun']|[Hacc' (e' & st1' & Hrun' & Hst' & Hab' & _)]];
    try congruence.
  - rewrite Hrun, Hrun'. split; [reflexivity|]. split.
    + intros _ _. cbn [fst snd r_set walls]. split; [reflexivity|].
      split; [reflexivity|]. intros req Hreq.
      pose proof (compute_path_registered req (Wall.obstacles wall)
                    (snd (create_wall wall_id wall st))) as Hcompute.
      rewrite Hrun in Hcompute. cbn [snd] in Hcompute.
      rewrite Hcompute.
      2:{ rewrite Hreq. unfold r_get, r_set. cbn [redis]. apply lookup_insert_eq. }
      destruct (rasterize _) as [e|grid] eqn:Hgrid; cbn [ebind]; [reflexivity|].
      split; [|reflexivity]. now apply rasterized_square in Hgrid.
    + intros path_id req. apply generate_path_reads; cbn [snd r_set redis paths aborted];
        [now rewrite Hobs|reflexivity|reflexivity].
  - assert (e = e' /\ aborted st1 = aborted st1') as [<- Hsame].
    { unfold create_wall, insert_wall in Hrun, Hrun'. cbn [wr_id] in Hrun, Hrun'.
      destruct (has_nul wall_id); [split; congruence|].
      destruct (aborted st); [split; congruence|].
      destruct (uuid_in wall_id); [|split; congruence].
      destruct (existsb _ _); [split; congruence|discriminate]. }
    rewrite Hrun, Hrun'. split; [reflexivity|]. split.
    + intros Hab0 Hfresh. unfold accepts_wall in Hacc.
      rewrite Hab0, Hfresh in Hacc. discriminate.
    + intros path_id req.
      apply stores_eq in Hst as (Hr & _ & Hp & _).
      apply stores_eq in Hst' as (Hr' & _ & Hp' & _).
      apply generate_path_reads; cbn [snd]; congruence.
Qed.

(** C5, as the code has it: the algorithm selector is recorded in the row
    of the plan and nowhere interpreted.  Two requests for the same wall
    that differ only in the selector, a str that can be bound to the
    INSERT (one without NUL), get the same answer from the one search and
    leave worlds that differ only in the [algorithm] column; the row of a
    plan that is returned holds the selector as it was given. *)
Theorem algorithm_is_not_interpreted
    (st : world) (path_id wall_id algorithm algorithm' : string) :
  has_nul algorithm = false ->
  has_nul algorithm' = false ->
  fst (generate_path astar path_id
         {| PathRequest.wall_id := wall_id;
            PathRequest.algorithm := algorithm |} st)
  = fst (generate_path astar path_id
           {| PathRequest.wall_id := wall_id;
              PathRequest.algorithm := algorithm' |} st)
  /\ redis (snd (generate_path astar path_id
                   {| PathRequest.wall_id := wall_id;
                      PathRequest.algorithm := algorithm |} st))
     = redis (snd (generate_path astar path_id
                     {| PathRequest.wall_id := wall_id;
                        PathRequest.algorithm := algorithm' |} st))
  /\ walls (snd (generate_path astar path_id
                   {| PathRequest.wall_id := wall_id;
                      PathRequest.algorithm := algorithm |} st))
     = walls (snd (generate_path astar path_id
                     {| PathRequest.wall_id := wall_id;
                        PathRequest.algorithm := algorithm' |} st))
  /\ robot_path (snd (generate_path astar path_id
                        {| PathRequest.wall_id := wall_id;
                           PathRequest.algorithm := algorithm |} st))
     = robot_path (snd (generate_path astar path_id
                          {| PathRequest.wall_id := wall_id;
                             PathRequest.algorithm := algorithm' |} st))
  /\ aborted (snd (generate_path astar path_id
                     {| PathRequest.wall_id := wall_id;
                        PathRequest.algorithm := algorithm |} st))
     = aborted (snd (generate_path astar path_id
                       {| PathRequest.wall_id := wall_id;
                          PathRequest.algorithm := algorithm' |} st))
  /\ map without_algorithm
       (paths (snd (generate_path astar path_id
                      {| PathRequest.wall_id := wall_id;
                         PathRequest.algorithm := algorithm |} st)))
     = map without_algorithm
         (paths (snd (generate_path astar path_id
                        {| PathRequest.wall_id := wall_id;
                           PathRequest.algorithm := algorithm' |} st)))
  /\ forall response st1,
       generate_path astar path_id
         {| PathRequest.wall_id := wall_id;
            PathRequest.algorithm := algorithm |} st = (inr response, st1) ->
       exists row,
         paths st1 = paths st ++ [row]
         /\ pr_id row = path_id /\ pr_wall_id row = wall_id
         /\ pr_algorithm row = algorithm.
Proof.
  intros Hnul Hnul'. split; [|split; [|split; [|split; [|split; [|split]]]]].
  7:{ intros response st1 Hplan.
      apply generate_path_returns in Hplan as (path & _ & _ & _ & ->).
      eexists. cbn [planned_world r_set paths]. split; [reflexivity|].
      repeat split. }
  all: unfold generate_path, compute_path, record_path, insert_path;
    cbn [pr_id pr_wall_id pr_algorithm PathRequest.wall_id PathRequest.algorithm];
    rewrite Hnul, Hnul';
    destruct (do wall_obstacles <- _; _) as [e|path]; [reflexivity|];
    destruct (_ || _); [reflexivity|];
    destruct (aborted st) eqn:Hab; [reflexivity|];
    destruct (uuid_in path_id) as [u|]; [|reflexivity];
    destruct (uuid_in wall_id) as [w|]; [|reflexivity];
    destruct (existsb _ _); [reflexivity|];
    cbn [fst snd redis walls paths robot_path aborted r_set];
    rewrite ?map_app; reflexivity.
Qed.

End ServiceFacts.

(** ** The search of the specification on a grid without a route *)

Section Search.
Context `{Codec}.

Lemma pop_best_keeps (P : node -> Prop) (open : list node) :
  forall best others,
    pop_best open = Some (best, others) ->
    Forall P open -> P best /\ Forall P others.
Proof.
  induction open as [|a rest IH]; intros best others; [discriminate|].
  cbn [pop_best]. intros Hpop Hall.
  apply Forall_cons in Hall as [Ha Hrest].
  destruct (pop_best rest) as [[b others']|].
  - destruct (IH b others' eq_refl Hrest) as [Hb Hothers].
    destruct (better b a); injection Hpop as <- <-; auto.
  - injection Hpop as <- <-. auto.
Qed.

Lemma cell_eqb_eq (a b : cell) : cell_eqb a b = true -> a = b.
Proof.
  destruct a as [a1 a2], b as [b1 b2]. unfold cell_eqb. cbn [fst snd].
  intros Heq. apply andb_true_iff in Heq as [H1 H2].
  apply Z.eqb_eq in H1, H2. now subst.
Qed.

(** Every node of the open set stands on a cell that a route joins to
    the start; so does the goal when the search returns cells. *)
Lemma search_finds_route (grid : list (list Z)) (start goal : cell) (fuel : nat) :
  forall open closed,
    Forall (fun n => route grid start (n_cell n)) open ->
    search fuel grid goal open closed <> [] ->
    route grid start goal.
Proof.
  induction fuel as [|fuel IH]; intros open closed Hopen; cbn [search];
    [congruence|].
  destruct (pop_best open) as [[best others]|] eqn:Hpop; [|congruence].
  destruct (pop_best_keeps _ _ _ _ Hpop Hopen) as [Hbest Hothers].
  destruct (cell_eqb (n_cell best) goal) eqn:Hgoal.
  { intros _. apply cell_eqb_eq in Hgoal. now subst goal. }
  destruct (existsb _ closed); [now apply IH|].
  apply IH. apply Forall_app. split; [exact Hothers|].
  apply Forall_forall. intros n Hn.
  apply list_elem_of_In, in_map_iff in Hn as (d & <- & Hd).
  apply list_elem_of_In, list_elem_of_filter in Hd as [Hfree Hnext].
  apply andb_True in Hfree as [Hfree _]. apply Is_true_true in Hfree.
  apply list_elem_of_In in Hnext.
  cbn [n_cell]. now apply (route_step grid start (n_cell best) d).
Qed.

(** Without a route between free endpoints the search of the
    specification returns the empty path. *)
Lemma astar_spec_no_route (grid : list (list Z)) (start goal : cell) :
  free_cell grid start = true -> free_cell grid goal = true ->
  ~ route grid start goal ->
  astar_spec grid start goal = inr (Some []).
Proof.
  intros Hstart Hgoal Hnone. unfold astar_spec. rewrite Hstart, Hgoal.
  cbn [andb]. do 2 f_equal.
  destruct (search _ grid goal _ []) as [|c cells] eqn:Hsearch; [reflexivity|].
  exfalso. apply Hnone.
  eapply search_finds_route; [|rewrite Hsearch; discriminate].
  apply Forall_cons. split; [|constructor]. cbn [n_cell]. now constructor.
Qed.

Lemma route_free (grid : list (list Z)) (start c : cell) :
  route grid start c -> free_cell grid c = true.
Proof. now intros [Hfree|c' d _ _ Hfree]. Qed.

Lemma neighbours_sym (c d : cell) : In d (neighbours c) -> In c (neighbours d).
Proof.
  destruct c as [c1 c2], d as [d1 d2]. unfold neighbours. cbn [fst snd In].
  intros [Hd|[Hd|[Hd|[Hd|[]]]]]; injection Hd as <- <-.
  - right. left. f_equal. lia.
  - left. f_equal. lia.
  - right. right. right. left. f_equal. lia.
  - right. right. left. f_equal. lia.
Qed.

(** A goal whose four neighbours are occupied or outside the grid is
    joined to no other cell. *)
Lemma enclosed_goal_no_route (grid : list (list Z)) (start goal : cell) :
  start <> goal ->
  forallb (fun c => negb (free_cell grid c)) (neighbours goal) = true ->
  ~ route grid start goal.
Proof.
  intros Hne Hclosed Hroute.
  destruct Hroute as [_|c d Hroute Hnext _]; [congruence|].
  apply route_free in Hroute. apply neighbours_sym in Hnext.
  rewrite forallb_forall in Hclosed. apply Hclosed in Hnext.
  rewrite Hroute in Hnext. discriminate.
Qed.

(** C9, as the code has it, with the search of the specification: when
    the corners of the grid are free and no route of free cells joins
    them, and the INSERT is accepted (a selector without NUL, a usable
    connection, a wall identifier that is a uuid and a path identifier
    that is a new one), the request returns (it does not raise) the
    identifier, the empty path and the metrics with
    [path_length] 0, and stores them; the response has no [found] entry.
    What tells it from an error is that it is returned: a request that
    fails raises the [HTTPException] with status 500. *)
Theorem empty_path_is_returned
    (st : world) (path_id : string) (req : PathRequest.t)
    (wall_obstacles : json) (grid : list (list Z)) :
  loads_opt (r_get (wall_key (PathRequest.wall_id req)) st) = inr wall_obstacles ->
  rasterize wall_obstacles = inr grid ->
  free_cell grid (0, 0) = true ->
  free_cell grid (grid_size - 1, grid_size - 1) = true ->
  ~ route grid (0, 0) (grid_size - 1, grid_size - 1) ->
  has_nul (PathRequest.algorithm req) = false ->
  aborted st = false ->
  is_uuid (PathRequest.wall_id req) = true ->
  fresh_uuid path_id (map pr_id (paths st)) = true ->
  (exists response st1,
     generate_path astar_spec path_id req st = (inr response, st1)
     /\ response = JObj [("path_id", JStr path_id);
                         ("path", JArr []);
                         ("metrics", JObj [("duration_ms", JInt 50);
                                           ("path_length", JInt 0)])]
     /\ json_field "found" response = None
     /\ paths st1
        = paths st ++ [{| pr_id := path_id;
                          pr_wall_id := PathRequest.wall_id req;
                          pr_algorithm := PathRequest.algorithm req;
                          pr_path_json := JArr [];
                          pr_metrics_json :=
                            JObj [("duration_ms", JInt 50);
                                  ("path_length", JInt 0)] |}])
  /\ forall path_id' req' st' failed st2,
       generate_path astar_spec path_id' req' st' = (inl failed, st2) ->
       exists e, failed = HTTPException 500 (StrOf e).
Proof.
  intros Hload Hgrid Hstart Hgoal Hnone Hnul Hab Hwall Hfresh.
  assert (accepts_plan path_id req st = true) as Hacc.
  { unfold accepts_plan. now rewrite Hnul, Hab, Hwall, Hfresh. }
  split.
  - exists (planned_response path_id []), (planned_world path_id req [] st).
    split; [|repeat split].
    apply generate_path_returns. exists []. repeat split; try assumption.
    unfold compute_path, find_path. rewrite Hload. cbn [ebind].
    rewrite Hgrid. cbn [ebind].
    now rewrite (astar_spec_no_route grid _ _ Hstart Hgoal Hnone).
  - intros path_id' req' st' failed st2 Hfail.
    now apply generate_path_fails in Hfail as (_ & _ & He).
Qed.

End Search.

(** * The service at work *)

(** The requests below are run with the reference codec and the search of
    the specification. *)

(** C1, counterexample: the same request served twice on the same wall
    returns two plans, p1 and p2, and the store holds both. *)
Lemma identical_requests_make_two_plans :
  fst (generate_path astar_spec p1 (plan_w1 "astar") (world_with (wall_of [])))
  = inr (planned_response p1 open_path)
  /\ fst (generate_path astar_spec p2 (plan_w1 "astar") world_planned)
     = inr (planned_response p2 open_path)
  /\ map pr_id
       (paths (snd (generate_path astar_spec p2 (plan_w1 "astar")
                      world_planned)))
     = [p1; p2].
Proof. vm_compute. repeat split. Qed.

Lemma repeated_plan_is_a_new_plan_witness :
  p1 <> p2
  /\ json_field "path_id" (planned_response p1 open_path) = Some (JStr p1)
  /\ json_field "path_id" (planned_response p2 open_path) = Some (JStr p2)
  /\ json_field "path" (planned_response p2 open_path)
     = json_field "path" (planned_response p1 open_path)
  /\ json_field "metrics" (planned_response p2 open_path)
     = json_field "metrics" (planned_response p1 open_path)
  /\ exists path,
       paths (planned_world p2 (plan_w1 "astar") open_path world_planned)
       = paths (world_with (wall_of []))
         ++ [planned_row p1 (plan_w1 "astar") path;
             planned_row p2 (plan_w1 "astar") path].
Proof.
  apply (repeated_plan_is_a_new_plan astar_spec
           (world_with (wall_of [])) (plan_w1 "astar") p1 p2
           (planned_response p1 open_path) (planned_response p2 open_path)
           world_planned
           (planned_world p2 (plan_w1 "astar") open_path world_planned));
    vm_compute; reflexivity.
Defined.

(** C2, counterexample: a circle of radius 3 at (5, 5) on a wall of 10 by
    10.  By the rule of the specification it covers the cell in column 6
    of row 5 (and others); the grid built for it has one occupied cell,
    the cell (5, 5), and the cell in column 6 of row 5 is free. *)
Lemma circle_of_radius_three_marks_one_cell :
  rasterize (obstacles_doc [big_circle]) = inr (set_cell empty_grid 5 5)
  /\ occupied (set_cell empty_grid 5 5) = 1%nat
  /\ spec_circle_covers (wall_of [big_circle]) big_circle 6 5 = true
  /\ grid_at (set_cell empty_grid 5 5) 6 5 = Some 0.
Proof. vm_compute. repeat split. Qed.

Lemma rasterize_marks_anchor_cells_witness :
  square (set_cell empty_grid 5 5)
  /\ forall x y,
       grid_at (set_cell empty_grid 5 5) x y
       = if in_grid x y
         then Some (if existsb (anchored_at x y) [big_circle] then 1 else 0)
         else None.
Proof.
  apply (rasterize_marks_anchor_cells [big_circle] (set_cell empty_grid 5 5)).
  vm_compute. reflexivity.
Defined.

(** C3: an obstacle whose position is outside the grid is skipped when
    the position is finite, and rejects the request when it is not.  With
    an obstacle at x = 12 the plan of the wall returns the path of the
    empty grid.  With an obstacle at x = +infinity (what the literal
    1e999 of a JSON body is read as) the wall is created, and the plan
    request fails with the 500 of [OverflowError]: [int] is applied
    before the bounds are tested. *)
Theorem infinite_coordinate_rejects_the_plan :
  fst (generate_path astar_spec p1 (plan_w1 "astar")
         (world_with (wall_of [circle (float_of_Z 12) (float_of_Z 5)
                                      (float_of_Z 1)])))
  = inr (planned_response p1 open_path)
  /\ fst (create_wall w1
            (wall_of [circle (S754_infinity false) (float_of_Z 5)
                             (float_of_Z 1)]) empty_world)
     = inr (JObj [("wall_id", JStr w1)])
  /\ fst (generate_path astar_spec p1 (plan_w1 "astar")
            (world_with (wall_of [circle (S754_infinity false) (float_of_Z 5)
                                         (float_of_Z 1)])))
     = inl (HTTPException 500 (StrOf OverflowError)).
Proof. vm_compute. repeat split. Qed.

(** C4, counterexample: a wall of width -1 and height 0 is created like
    any other, and the plan request for it returns the path of the empty
    grid. *)
Lemma wall_of_negative_width_is_planned :
  fst (create_wall w1
         {| Wall.width := float_of_Z (-1); Wall.height := float_of_Z 0;
            Wall.obstacles := [] |} empty_world)
  = inr (JObj [("wall_id", JStr w1)])
  /\ fst (generate_path astar_spec p1 (plan_w1 "astar")
            (world_with {| Wall.width := float_of_Z (-1);
                           Wall.height := float_of_Z 0;
                           Wall.obstacles := [] |}))
     = inr (planned_response p1 open_path).
Proof. vm_compute. repeat split. Qed.

(** A wall of width -1 and height 0 with one obstacle: it is created, its
    row holds -1 and 0, and it is planned on the grid of a wall of 10 by
    10 with the same obstacle. *)
Lemma wall_dimensions_are_not_checked_witness :
  fst (create_wall w1 (flat_wall [big_circle]) empty_world)
  = inr (JObj [("wall_id", JStr w1)])
  /\ walls (snd (create_wall w1 (flat_wall [big_circle]) empty_world))
     = [{| wr_id := w1; wr_width := float_of_Z (-1);
           wr_height := float_of_Z 0 |}]
  /\ fst (generate_path astar_spec p1 (plan_w1 "astar")
            (snd (create_wall w1 (flat_wall [big_circle]) empty_world)))
     = fst (generate_path astar_spec p1 (plan_w1 "astar")
              (snd (create_wall w1 (wall_of [big_circle]) empty_world))).
Proof.
  destruct (wall_dimensions_are_not_checked astar_spec empty_world w1
              (flat_wall [big_circle]) (wall_of [big_circle]) eq_refl)
    as (_ & Hcreated & Hplanned).
  destruct Hcreated as (Hresponse & Hrow & _);
    [reflexivity|vm_compute; reflexivity|].
  split; [exact Hresponse|]. split; [exact Hrow|apply Hplanned].
Defined.

(** C5, counterexample: a request whose algorithm is "teleport" is served
    by the one search and returns the path of the empty grid. *)
Lemma unknown_algorithm_is_planned :
  fst (generate_path astar_spec p1 (plan_w1 "teleport")
         (world_with (wall_of [])))
  = inr (planned_response p1 open_path).
Proof. vm_compute. reflexivity. Qed.

Lemma algorithm_is_not_interpreted_witness :
  fst (generate_path astar_spec p1 (plan_w1 "astar") (world_with (wall_of [])))
  = fst (generate_path astar_spec p1 (plan_w1 "teleport")
           (world_with (wall_of []))).
Proof.
  apply (algorithm_is_not_interpreted astar_spec (world_with (wall_of []))
           p1 w1 "astar" "teleport"); reflexivity.
Defined.

(** C6: a plan request for a wall that was never created fails with the
    500 of the [TypeError] raised by [json.loads(None)], the status of
    every other failure of the handler (here: of a NaN coordinate), while
    [execute_path] and [get_path] answer an unknown identifier with their
    404. *)
Theorem missing_wall_is_a_generic_500 :
  generate_path astar_spec p1 (plan_w1 "astar") empty_world
  = (inl (HTTPException 500 (StrOf TypeError)), empty_world)
  /\ fst (generate_path astar_spec p1 (plan_w1 "astar")
            (world_with (wall_of [circle S754_nan (float_of_Z 5)
                                         (float_of_Z 1)])))
     = inl (HTTPException 500 (StrOf ValueError))
  /\ fst (execute_path p1 empty_world)
     = inl (HTTPException 404 (Message "Path not found"))
  /\ fst (get_path p1 empty_world)
     = inl (HTTPException 404 (Message "Path not found")).
Proof. vm_compute. repeat split. Qed.

(** The plan p1 is dispatched from the cache; after its cache entry is
    gone it is dispatched from the store, also when the identifier is
    written in capitals; p2, which was never planned, is answered with
    the 404. *)
Lemma execute_path_resolves_witness :
  (exists st1,
     execute_path p1 world_planned
     = (inr (JObj [("status", JStr "sent")]), st1)
     /\ robot_path st1
        = robot_path world_planned ++ [dumps (path_doc open_path)]
     /\ redis st1 = redis world_planned /\ walls st1 = walls world_planned
     /\ paths st1 = paths world_planned
     /\ aborted st1 = aborted world_planned)
  /\ (exists row st1,
        In row (paths world_evicted) /\ uuid_in (pr_id row) = Some p1_bytes
        /\ execute_path p1_upper world_evicted
           = (inr (JObj [("status", JStr "sent")]), st1)
        /\ robot_path st1
           = robot_path world_evicted ++ [dumps (pr_path_json row)]
        /\ redis st1 = redis world_evicted /\ walls st1 = walls world_evicted
        /\ paths st1 = paths world_evicted
        /\ aborted st1 = aborted world_evicted)
  /\ execute_path p2 world_planned
     = (inl (HTTPException 404 (Message "Path not found")), world_planned).
Proof.
  split; [|split].
  - apply (proj1 (execute_path_resolves world_planned p1)).
    + vm_compute. reflexivity.
    + vm_compute. discriminate.
  - apply (proj1 (proj2 (execute_path_resolves world_evicted p1_upper))).
    + left. vm_compute. reflexivity.
    + reflexivity.
    + vm_compute. reflexivity.
    + apply Exists_exists. exists (planned_row p1 (plan_w1 "astar") open_path).
      split; [left|]; vm_compute; reflexivity.
  - apply (proj2 (proj2 (proj2 (execute_path_resolves world_planned p2)))
             p2_bytes).
    + left. vm_compute. reflexivity.
    + reflexivity.
    + vm_compute. reflexivity.
    + apply Forall_forall. intros row Hrow.
      apply list_elem_of_In in Hrow. destruct Hrow as [<-|[]].
      vm_compute. discriminate.
Defined.

(** C8, counterexample: after the plan p1 the store has the metrics of
    the plan and the cache does not.  What the cache holds under the
    identifier is the list of cells; it has no [metrics] (and no
    identifier) to compare. *)
Lemma cache_entry_has_no_metrics :
  fst (get_path p1 world_planned)
  = inr (JObj [("path", path_doc open_path);
               ("metrics", metrics_doc open_path)])
  /\ loads_opt (r_get (path_key p1) world_planned) = inr (path_doc open_path)
  /\ json_field "metrics" (path_doc open_path) = None
  /\ json_field "path_id" (path_doc open_path) = None.
Proof. vm_compute. repeat split. Qed.

Lemma planned_path_in_store_and_cache_witness :
  exists (path : list cell) (row : path_row),
    planned_response p1 open_path = planned_response p1 path
    /\ select_path p1 world_planned = (inr (Some row), world_planned)
    /\ pr_id row = p1
    /\ Some (pr_path_json row)
       = json_field "path" (planned_response p1 open_path)
    /\ Some (pr_metrics_json row)
       = json_field "metrics" (planned_response p1 open_path)
    /\ get_path p1 world_planned
       = (inr (JObj [("path", path_doc path); ("metrics", metrics_doc path)]),
          world_planned)
    /\ r_get (path_key p1) world_planned = Some (dumps (path_doc path))
    /\ loads_opt (r_get (path_key p1) world_planned) = inr (path_doc path)
    /\ Some (path_doc path)
       = json_field "path" (planned_response p1 open_path).
Proof.
  apply (planned_path_in_store_and_cache astar_spec
           (world_with (wall_of [])) p1 (plan_w1 "astar")).
  vm_compute. reflexivity.
Defined.

(** C9, counterexample: with the goal cell enclosed the search yields the
    empty path, and the request returns the identifier, the empty path
    and the metrics: the response has no [found] entry. *)
Lemma unreachable_goal_has_no_found_flag :
  fst (generate_path astar_spec p1 (plan_w1 "astar")
         (world_with (wall_of enclosing)))
  = inr (JObj [("path_id", JStr p1);
               ("path", JArr []);
               ("metrics", JObj [("duration_ms", JInt 50);
                                 ("path_length", JInt 0)])])
  /\ json_field "found"
       (JObj [("path_id", JStr p1);
              ("path", JArr []);
              ("metrics", JObj [("duration_ms", JInt 50);
                                ("path_length", JInt 0)])])
     = None.
Proof. vm_compute. repeat split. Qed.

Lemma empty_path_is_returned_witness :
  exists response st1,
    generate_path astar_spec p1 (plan_w1 "astar")
      (world_with (wall_of enclosing)) = (inr response, st1)
    /\ response = JObj [("path_id", JStr p1);
                        ("path", JArr []);
                        ("metrics", JObj [("duration_ms", JInt 50);
                                          ("path_length", JInt 0)])]
    /\ json_field "found" response = None
    /\ paths st1
       = paths (world_with (wall_of enclosing))
         ++ [{| pr_id := p1;
                pr_wall_id := w1;
                pr_algorithm := "astar";
                pr_path_json := JArr [];
                pr_metrics_json :=
                  JObj [("duration_ms", JInt 50); ("path_length", JInt 0)] |}].
Proof.
  refine (proj1 (empty_path_is_returned
                   (world_with (wall_of enclosing)) p1 (plan_w1 "astar")
                   (obstacles_doc enclosing)
                   (set_cell (set_cell empty_grid 8 9) 9 8)
                   _ _ _ _ _ _ _ _ _));
    try (vm_compute; reflexivity).
  apply enclosed_goal_no_route; [discriminate|vm_compute; reflexivity].
Defined.


(** * The service over its lifetime *)

Section Lifetime.
Context `{Codec}.
Variable astar : list (list Z) -> cell -> cell -> pyexc + option (list cell).

Lemma serve_all_app (rqs rqs' : list request) (st : world) :
  serve_all astar (rqs ++ rqs') st
  = serve_all astar rqs' (serve_all astar rqs st).
Proof. unfold serve_all. apply fold_left_app. Qed.

(** A property of worlds that every request keeps holds after any
    sequence of requests. *)
Lemma serve_all_keeps_invariant (P : world -> Prop) :
  (forall rq st, P st -> P (snd (serve astar rq st))) ->
  forall rqs st, P st -> P (serve_all astar rqs st).
Proof.
  intros Hstep rqs. induction rqs as [|rq rqs IH]; intros st Hst; [exact Hst|].
  cbn [serve_all fold_left]. apply IH, Hstep, Hst.
Qed.

(** An aborted connection stays aborted. *)
Lemma serve_aborted_stays (rq : request) (st : world) :
  aborted st = true -> aborted (snd (serve astar rq st)) = true.
Proof.
  intros Hab.
  destruct (serve_effect astar rq st)
    as [[_ Hkeep]|[(body & ->)|[(w & wall & _ & Hacc & _)
                               |(p & req & path & _ & _ & Hacc & _)]]].
  - now apply Hkeep.
  - exact Hab.
  - unfold accepts_wall in Hacc. rewrite Hab in Hacc. discriminate.
  - unfold accepts_plan in Hacc. rewrite Hab, andb_false_r in Hacc.
    discriminate.
Qed.

Lemma coherent_empty : coherent empty_world.
Proof.
  unfold coherent, empty_world. cbn [walls paths redis map].
  split; [constructor|]. split; [constructor|]. split; [|split; [|split]].
  - intros k text Hget. now rewrite lookup_empty in Hget.
  - intros w [].
  - intros row [].
  - intros row [].
Qed.

Lemma coherent_same (st st' : world) :
  redis st' = redis st -> walls st' = walls st -> paths st' = paths st ->
  coherent st -> coherent st'.
Proof. unfold coherent. intros -> -> ->. auto. Qed.

Lemma coherent_wall_key_fresh wall_id st :
  coherent st -> ~ In wall_id (map wr_id (walls st)) ->
  redis st !! wall_key wall_id = None.
Proof.
  intros (_ & _ & Hkeys & _) Hfresh.
  destruct (redis st !! wall_key wall_id) as [text|] eqn:Hget; [|reflexivity].
  exfalso. destruct (Hkeys _ _ Hget) as [(w & Hkey & Hin)|(row & Hkey & _)].
  - apply wall_key_inj in Hkey. now subst.
  - symmetry in Hkey. now apply path_key_not_wall_key in Hkey.
Qed.

Lemma coherent_path_key_fresh path_id st :
  coherent st -> ~ In path_id (map pr_id (paths st)) ->
  redis st !! path_key path_id = None.
Proof.
  intros (_ & _ & Hkeys & _) Hfresh.
  destruct (redis st !! path_key path_id) as [text|] eqn:Hget; [|reflexivity].
  exfalso. destruct (Hkeys _ _ Hget) as [(w & Hkey & Hin)|(row & Hkey & Hin & _)].
  - now apply path_key_not_wall_key in Hkey.
  - apply path_key_inj in Hkey. subst. apply Hfresh, in_map, Hin.
Qed.

Lemma accepts_wall_fresh wall_id st :
  accepts_wall wall_id st = true -> ~ In wall_id (map wr_id (walls st)).
Proof.
  unfold accepts_wall. intros Hacc. apply andb_true_iff in Hacc as [_ Hfresh].
  now apply fresh_uuid_not_in.
Qed.

Lemma accepts_plan_fresh path_id req st :
  accepts_plan path_id req st = true -> ~ In path_id (map pr_id (paths st)).
Proof.
  unfold accepts_plan. intros Hacc. apply andb_true_iff in Hacc as [_ Hfresh].
  now apply fresh_uuid_not_in.
Qed.

(** A planned wall is a wall of Redis. *)
Lemma compute_path_wall_key req st path :
  compute_path astar req st = inr path ->
  is_Some (redis st !! wall_key (PathRequest.wall_id req)).
Proof.
  unfold compute_path, r_get.
  destruct (redis st !! _) as [text|]; [eauto|discriminate].
Qed.

Lemma coherent_created wall_id wall st :
  coherent st -> accepts_wall wall_id st = true ->
  coherent
    (r_set (wall_key wall_id) (dumps (obstacles_doc (Wall.obstacles wall)))
       {| redis := redis st;
          walls := walls st ++ [{| wr_id := wall_id;
                                   wr_width := Wall.width wall;
                                   wr_height := Wall.height wall |}];
          paths := paths st; robot_path := robot_path st;
          aborted := false |}).
Proof.
  intros Hst Hacc. apply accepts_wall_fresh in Hacc as Hfresh.
  destruct Hst as (Hwalls & Hpaths & Hkeys & Hwkeys & Hrows & Hsel).
  unfold coherent, r_set. cbn [redis walls paths].
  rewrite map_app. cbn [map wr_id].
  split; [|split; [exact Hpaths|split; [|split; [|split; [|exact Hsel]]]]].
  - apply NoDup_app. repeat split; [exact Hwalls| |apply NoDup_singleton].
    intros w Hin Hw. apply list_elem_of_In in Hin.
    apply list_elem_of_singleton in Hw. now subst.
  - intros key text Hget. destruct (decide (key = wall_key wall_id)) as [->|Hne].
    + left. exists wall_id. split; [reflexivity|]. apply in_or_app. right. now left.
    + rewrite lookup_insert_ne in Hget by congruence.
      destruct (Hkeys _ _ Hget) as [(w & -> & Hin)|Hrow]; [left|now right].
      exists w. split; [reflexivity|]. apply in_or_app. now left.
  - intros w Hin. destruct (decide (w = wall_id)) as [->|Hne].
    + rewrite lookup_insert_eq. eauto.
    + rewrite lookup_insert_ne.
      * apply Hwkeys. apply in_app_or in Hin as [Hin|[Hin|[]]]; congruence.
      * intros Hkey. apply wall_key_inj in Hkey. congruence.
  - intros row Hin. destruct (Hrows row Hin) as (Hget & Hwall & Hdoc).
    split; [|split; [apply in_or_app; now left|exact Hdoc]].
    rewrite lookup_insert_ne; [exact Hget|].
    intros Hkey. symmetry in Hkey. now apply path_key_not_wall_key in Hkey.
Qed.

Lemma find_app_some {A} (f : A -> bool) (l l' : list A) (x : A) :
  find f l = Some x -> find f (l ++ l') = Some x.
Proof.
  induction l as [|a l IH]; [discriminate|]. cbn [app find].
  destruct (f a); [auto|exact IH].
Qed.

Lemma coherent_planned path_id req path st :
  coherent st -> compute_path astar req st = inr path ->
  accepts_plan path_id req st = true ->
  coherent (planned_world path_id req path st).
Proof.
  intros Hst Hcompute Hacc. apply accepts_plan_fresh in Hacc as Hfresh.
  pose proof (compute_path_wall_key _ _ _ Hcompute) as [text Hwall].
  destruct Hst as (Hwalls & Hpaths & Hkeys & Hwkeys & Hrows & Hsel).
  unfold coherent, planned_world, r_set. cbn [redis walls paths].
  rewrite map_app. cbn [map planned_row pr_id].
  split; [exact Hwalls|split; [|split; [|split; [|split]]]].
  - apply NoDup_app. repeat split; [exact Hpaths| |apply NoDup_singleton].
    intros p Hin Hp. apply list_elem_of_In in Hin.
    apply list_elem_of_singleton in Hp. now subst.
  - intros key text' Hget. destruct (decide (key = path_key path_id)) as [->|Hne].
    + rewrite lookup_insert_eq in Hget. injection Hget as <-.
      right. exists (planned_row path_id req path).
      split; [reflexivity|]. split; [|reflexivity].
      apply in_or_app. right. now left.
    + rewrite lookup_insert_ne in Hget by congruence.
      destruct (Hkeys _ _ Hget) as [Hw|(row & -> & Hin & ->)]; [now left|right].
      exists row. split; [reflexivity|]. split; [|reflexivity].
      apply in_or_app. now left.
  - intros w Hin. rewrite lookup_insert_ne; [now apply Hwkeys|].
    apply path_key_not_wall_key.
  - intros row Hin. apply in_app_or in Hin as [Hin|[<-|[]]].
    + destruct (Hrows row Hin) as (Hget & Hw & Hdoc).
      split; [|split; assumption].
      rewrite lookup_insert_ne; [exact Hget|].
      intros Hkey. apply path_key_inj in Hkey. apply Hfresh.
      rewrite Hkey. apply in_map, Hin.
    + cbn [planned_row pr_id pr_path_json pr_wall_id pr_metrics_json].
      split; [apply lookup_insert_eq|]. split; [|eauto].
      destruct (Hkeys _ _ Hwall) as [(w & Hkey & Hin)|(row & Hkey & _)].
      * apply wall_key_inj in Hkey. now subst.
      * symmetry in Hkey. now apply path_key_not_wall_key in Hkey.
  - intros row Hin. apply in_app_or in Hin as [Hin|[<-|[]]].
    + destruct (Hsel row Hin) as (u & Hu & Hfind). exists u.
      split; [exact Hu|]. now apply find_app_some.
    + unfold accepts_plan in Hacc. apply andb_true_iff in Hacc as [_ Hnew].
      unfold fresh_uuid in Hnew.
      destruct (uuid_in path_id) as [u|] eqn:Hu; [|discriminate].
      apply negb_true_iff in Hnew. exists u. split; [exact Hu|].
      now apply find_uuid_app.
Qed.

Lemma coherent_serve rq st :
  coherent st -> coherent (snd (serve astar rq st)).
Proof.
  intros Hst.
  destruct (serve_effect astar rq st)
    as [[Hsame _]|[(body & ->)|[(w & wall & _ & Hacc & ->)
                               |(p & req & path & _ & Hpath & Hacc & ->)]]].
  - apply stores_eq in Hsame as (Hr & Hw & Hp & _).
    now apply (coherent_same st).
  - exact Hst.
  - now apply coherent_created.
  - now apply coherent_planned.
Qed.

(** Every world the service reaches from the empty one is coherent. *)
Lemma coherent_reached (rqs : list request) :
  coherent (serve_all astar rqs empty_world).
Proof.
  apply (serve_all_keeps_invariant coherent);
    [apply coherent_serve|apply coherent_empty].
Qed.

(** ** What holds in every world the service reaches *)

(** X5: the identifiers of the walls are pairwise distinct, and so are
    the identifiers of the paths, after any sequence of requests. *)
Theorem identifiers_stay_distinct (rqs : list request) :
  NoDup (map wr_id (walls (serve_all astar rqs empty_world)))
  /\ NoDup (map pr_id (paths (serve_all astar rqs empty_world))).
Proof.
  destruct (coherent_reached rqs) as (Hwalls & Hpaths & _). now split.
Qed.

(** X6: the table of walls and the obstacle keys of Redis stay in step: a
    wall has a row exactly when its obstacle list is in Redis. *)
Theorem walls_and_obstacle_keys_agree (rqs : list request) (wall_id : string) :
  In wall_id (map wr_id (walls (serve_all astar rqs empty_world)))
  <-> is_Some (r_get (wall_key wall_id) (serve_all astar rqs empty_world)).
Proof.
  pose proof (coherent_reached rqs) as Hst. split.
  - destruct Hst as (_ & _ & _ & Hwkeys & _). apply Hwkeys.
  - intros [text Hget]. destruct (in_dec string_dec wall_id
      (map wr_id (walls (serve_all astar rqs empty_world)))) as [Hin|Hfresh];
      [exact Hin|].
    unfold r_get in Hget.
    rewrite (coherent_wall_key_fresh _ _ Hst Hfresh) in Hget. discriminate.
Qed.

(** X7: every stored path belongs to a wall that has a row, although the
    schema declares no foreign key: a plan is stored only for a wall
    whose obstacles were found. *)
Theorem plans_belong_to_walls (rqs : list request) :
  Forall (fun row =>
            In (pr_wall_id row)
               (map wr_id (walls (serve_all astar rqs empty_world))))
         (paths (serve_all astar rqs empty_world)).
Proof.
  destruct (coherent_reached rqs) as (_ & _ & _ & _ & Hrows & _).
  apply List.Forall_forall. intros row Hin. now destruct (Hrows row Hin) as (_ & ? & _).
Qed.

(** X8: every stored path is a list of cells, and the metrics stored
    with it are the constant duration of 50 and the number of its
    cells. *)
Theorem stored_metrics_match_path (rqs : list request) :
  Forall (fun row =>
            exists path : list cell,
              pr_path_json row = JArr (map cell_json path)
              /\ pr_metrics_json row
                 = JObj [("duration_ms", JInt 50);
                         ("path_length", JInt (Z.of_nat (length path)))])
         (paths (serve_all astar rqs empty_world)).
Proof.
  destruct (coherent_reached rqs) as (_ & _ & _ & _ & Hrows & _).
  apply List.Forall_forall. intros row Hin.
  destruct (Hrows row Hin) as (_ & _ & path & Hpath & Hmetrics). eauto.
Qed.

(** The row of a stored path is read back through its identifier as long
    as the connection is usable. *)
Lemma select_path_of_row (row : path_row) (st : world) :
  coherent st -> aborted st = false -> In row (paths st) ->
  select_path (pr_id row) st = (inr (Some row), st).
Proof.
  intros (_ & _ & _ & _ & _ & Hsel) Hab Hin.
  destruct (Hsel row Hin) as (u & Hu & Hfind).
  unfold select_path. now rewrite (uuid_in_no_nul _ _ Hu), Hab, Hu, Hfind.
Qed.

(** The cache and the store hold the same paths: the text under the key
    of an identifier is the serialised path of the row that was written
    with it. *)
Lemma coherent_cache path_id text st :
  coherent st ->
  r_get (path_key path_id) st = Some text <->
  exists row, In row (paths st) /\ pr_id row = path_id
              /\ text = dumps (pr_path_json row).
Proof.
  intros (_ & _ & Hkeys & _ & Hrows & _). unfold r_get. split.
  - intros Hget.
    destruct (Hkeys _ _ Hget) as [(w & Hkey & _)|(row & Hkey & Hin & ->)].
    + now apply path_key_not_wall_key in Hkey.
    + apply path_key_inj in Hkey. eauto.
  - intros (row & Hin & <- & ->). now destruct (Hrows row Hin).
Qed.

Lemma execute_path_evicted path_id st :
  execute_path path_id (evict path_id st)
  = match select_path path_id st with
    | (inl e, st1) => (inl (Uncaught e), evict path_id st1)
    | (inr None, st1) =>
        (inl (HTTPException 404 (Message "Path not found")), evict path_id st1)
    | (inr (Some row), st1) =>
        (inr (JObj [("status", JStr "sent")]),
         basic_publish (dumps (pr_path_json row)) (evict path_id st1))
    end.
Proof.
  unfold execute_path, r_get, evict at 1. cbn [redis].
  rewrite lookup_delete_eq. cbn [truthy].
  unfold select_path. cbn [evict aborted paths].
  destruct (has_nul path_id); [reflexivity|].
  destruct (aborted st); [reflexivity|].
  destruct (uuid_in path_id) as [u|]; [|reflexivity].
  now destruct (find _ _).
Qed.

(** X9: dispatch does not depend on the cache while the connection is
    usable.  In every world the service reaches, the cache entry of an
    identifier is the serialised path of the row written with that
    identifier; so, on a usable connection, [execute_path] answers the
    same and publishes the same message after Redis has dropped the
    entry. *)
Theorem dispatch_survives_eviction (rqs : list request) (path_id : string) :
  aborted (serve_all astar rqs empty_world) = false ->
  (forall text,
     r_get (path_key path_id) (serve_all astar rqs empty_world) = Some text
     <-> exists row,
           In row (paths (serve_all astar rqs empty_world))
           /\ pr_id row = path_id /\ text = dumps (pr_path_json row))
  /\ fst (execute_path path_id (evict path_id (serve_all astar rqs empty_world)))
     = fst (execute_path path_id (serve_all astar rqs empty_world))
  /\ robot_path
       (snd (execute_path path_id
               (evict path_id (serve_all astar rqs empty_world))))
     = robot_path
         (snd (execute_path path_id (serve_all astar rqs empty_world))).
Proof.
  intros Hab. pose proof (coherent_reached rqs) as Hst.
  split; [intros text; now apply coherent_cache|].
  rewrite execute_path_evicted. unfold execute_path.
  destruct (r_get (path_key path_id) _) as [text|] eqn:Hget.
  - apply (coherent_cache _ _ _ Hst) in Hget as (row & Hin & <- & ->).
    rewrite truthy_dumps, (select_path_of_row row _ Hst Hab Hin).
    split; reflexivity.
  - cbn [truthy]. destruct (select_path path_id _) as [[e|[row|]] st1];
      split; reflexivity.
Qed.

Lemma serve_redis_grows rq st :
  coherent st -> redis st ⊆ redis (snd (serve astar rq st)).
Proof.
  intros Hst.
  destruct (serve_effect astar rq st)
    as [[Hsame _]|[(body & ->)|[(w & wall & _ & Hacc & ->)
                               |(p & req & path & _ & _ & Hacc & ->)]]].
  - apply stores_eq in Hsame as (-> & _). reflexivity.
  - reflexivity.
  - cbn [r_set redis]. apply insert_subseteq.
    apply coherent_wall_key_fresh; [exact Hst|now apply accepts_wall_fresh].
  - cbn [planned_world r_set redis]. apply insert_subseteq.
    apply coherent_path_key_fresh; [exact Hst|].
    now apply (accepts_plan_fresh _ req).
Qed.

Lemma serve_all_redis_grows rqs st :
  coherent st -> redis st ⊆ redis (serve_all astar rqs st).
Proof.
  revert st. induction rqs as [|rq rqs IH]; intros st Hst; [reflexivity|].
  cbn [serve_all fold_left]. etrans; [apply (serve_redis_grows rq), Hst|].
  apply IH, coherent_serve, Hst.
Qed.

(** X4: what the service has written to Redis is never overwritten and
    never removed by a later request: the entries after [rqs] are still
    there, with the same texts, after [rqs'] more. *)
Theorem redis_entries_are_written_once (rqs rqs' : list request) :
  redis (serve_all astar rqs empty_world)
  ⊆ redis (serve_all astar (rqs ++ rqs') empty_world).
Proof.
  rewrite serve_all_app. apply serve_all_redis_grows, coherent_reached.
Qed.

(** X17: what is dispatched is what [get_path] shows.  In every world the
    service reaches, for an identifier for which [get_path] returns,
    [execute_path] publishes the serialised [path] of that response; and
    on a usable connection, for an identifier for which [get_path] fails,
    [execute_path] fails in the same way and leaves the same world. *)
Theorem dispatch_matches_get_path (rqs : list request) (path_id : string) :
  (forall shown st1,
     get_path path_id (serve_all astar rqs empty_world) = (inr shown, st1) ->
     exists doc,
       json_field "path" shown = Some doc
       /\ execute_path path_id (serve_all astar rqs empty_world)
          = (inr (JObj [("status", JStr "sent")]),
             basic_publish (dumps doc) (serve_all astar rqs empty_world)))
  /\ (aborted (serve_all astar rqs empty_world) = false ->
      forall failed st1,
        get_path path_id (serve_all astar rqs empty_world) = (inl failed, st1) ->
        execute_path path_id (serve_all astar rqs empty_world)
        = (inl failed, st1)).
Proof.
  pose proof (coherent_reached rqs) as Hst.
  generalize dependent (serve_all astar rqs empty_world). intros st Hst.
  assert (forall text,
            r_get (path_key path_id) st = Some text -> aborted st = false ->
            exists row,
              text = dumps (pr_path_json row)
              /\ select_path path_id st = (inr (Some row), st)) as Hcached.
  { intros text Hget Hab.
    apply (coherent_cache _ _ _ Hst) in Hget as (row & Hin & <- & ->).
    exists row. split; [reflexivity|]. now apply select_path_of_row. }
  split.
  - intros shown st1. unfold get_path, execute_path.
    destruct (select_path path_id st) as [[e|[row|]] st'] eqn:Hrow;
      try discriminate.
    intros [= <- <-]. exists (pr_path_json row). split; [reflexivity|].
    assert (aborted st = false /\ st' = st) as [Hab ->].
    { unfold select_path in Hrow. destruct (has_nul path_id); [discriminate|].
      destruct (aborted st); [discriminate|].
      destruct (uuid_in path_id); [|discriminate].
      now injection Hrow as _ <-. }
    destruct (r_get (path_key path_id) st) as [text|] eqn:Hget;
      [|reflexivity].
    destruct (Hcached text eq_refl Hab) as (row' & -> & Hrow').
    rewrite truthy_dumps. congruence.
  - intros Hab failed st1. unfold get_path, execute_path.
    destruct (r_get (path_key path_id) st) as [text|] eqn:Hget.
    + destruct (Hcached text eq_refl Hab) as (row' & -> & ->). discriminate.
    + cbn [truthy].
      destruct (select_path path_id st) as [[e|[row|]] st']; congruence.
Qed.

(** ** get_metrics *)

Lemma cached_paths_set key text st :
  redis st !! key = None ->
  cached_paths (r_set key text st)
  = cached_paths st + (if String.prefix "path:" key then 1 else 0).
Proof.
  intros Hfresh. unfold cached_paths, r_set. cbn [redis].
  pose proof (map_to_list_insert (redis st) key text Hfresh) as Hperm.
  apply (Permutation_map fst) in Hperm.
  apply (filter_Permutation (fun k => String.prefix "path:" k = true)) in Hperm.
  apply Permutation_length in Hperm. rewrite Hperm.
  cbn [map fst]. rewrite filter_cons.
  destruct (String.prefix "path:" key); case_decide; try congruence;
    cbn [length]; lia.
Qed.

Lemma path_key_matches (path_id : string) :
  String.prefix "path:" (path_key path_id) = true.
Proof. unfold path_key. cbv [String.append String.prefix]. now destruct path_id. Qed.

Lemma wall_key_does_not_match (wall_id : string) :
  String.prefix "path:" (wall_key wall_id) = false.
Proof. reflexivity. Qed.

Lemma counted_serve rq st :
  coherent st -> counted st -> counted (snd (serve astar rq st)).
Proof.
  intros Hst Hcount.
  destruct (serve_effect astar rq st)
    as [[Hsame _]|[(body & ->)|[(w & wall & _ & Hacc & ->)
                               |(p & req & path & _ & _ & Hacc & ->)]]].
  - apply stores_eq in Hsame as (Hr & _ & Hp & _).
    unfold counted, cached_paths in *. now rewrite Hr, Hp.
  - exact Hcount.
  - unfold counted. rewrite cached_paths_set.
    + rewrite wall_key_does_not_match. cbn [paths r_set].
      unfold counted in Hcount. unfold cached_paths in *. cbn [redis]. lia.
    + cbn [redis]. apply coherent_wall_key_fresh; [exact Hst|].
      now apply accepts_wall_fresh.
  - unfold counted, planned_world. rewrite cached_paths_set.
    + rewrite path_key_matches. cbn [paths r_set]. rewrite length_app.
      unfold counted in Hcount. unfold cached_paths in *. cbn [redis length].
      lia.
    + cbn [redis]. apply coherent_path_key_fresh; [exact Hst|].
      now apply (accepts_plan_fresh _ req).
Qed.

Lemma counted_reached (rqs : list request) :
  counted (serve_all astar rqs empty_world).
Proof.
  apply (serve_all_keeps_invariant (fun st => coherent st /\ counted st)).
  - intros rq st [Hst Hcount]. split;
      [now apply coherent_serve|now apply counted_serve].
  - split; [apply coherent_empty|reflexivity].
Qed.

(** X10: [get_metrics] never fails and changes nothing.  After any
    sequence of requests from the empty world it reports the constant
    response time 20, the status "idle" (no request writes
    [robot_status]) and, as [cached_paths], the number of paths that were
    planned and stored. *)
Theorem get_metrics_counts_plans (rqs : list request) :
  get_metrics (serve_all astar rqs empty_world)
  = (inr (JObj [("api_response_time_ms", JInt 20);
                ("robot_status", JStr "idle");
                ("cached_paths",
                 JInt (Z.of_nat
                         (length (paths (serve_all astar rqs empty_world)))))]),
     serve_all astar rqs empty_world).
Proof.
  unfold get_metrics. rewrite (counted_reached rqs).
  assert (r_get "robot_status" (serve_all astar rqs empty_world) = None) as ->;
    [|reflexivity].
  destruct (coherent_reached rqs) as (_ & _ & Hkeys & _). unfold r_get.
  destruct (redis _ !! "robot_status") as [text|] eqn:Hget; [|reflexivity].
  destruct (Hkeys _ _ Hget) as [(w & Hkey & _)|(row & Hkey & _)];
    cbv [wall_key path_key String.append] in Hkey; discriminate.
Qed.

(** ** What a request may change *)

(** X3: a request only appends.  It leaves the rows of [walls] and
    [paths] and the messages of the queue in place and adds at most one
    element in all: a wall ([create_wall]), a path ([generate_path]) or a
    message ([execute_path]); no key of Redis disappears. *)
Theorem request_only_appends (rq : request) (st : world) :
  exists (new_walls : list wall_row) (new_paths : list path_row)
         (new_messages : list string),
    walls (snd (serve astar rq st)) = walls st ++ new_walls
    /\ paths (snd (serve astar rq st)) = paths st ++ new_paths
    /\ robot_path (snd (serve astar rq st)) = robot_path st ++ new_messages
    /\ (length new_walls + length new_paths + length new_messages <= 1)%nat
    /\ dom (redis st) ⊆ dom (redis (snd (serve astar rq st))).
Proof.
  destruct (serve_effect astar rq st)
    as [[Hsame _]|[(body & ->)|[(w & wall & _ & _ & ->)
                               |(p & req & path & _ & _ & _ & ->)]]].
  - apply stores_eq in Hsame as (-> & -> & -> & ->).
    exists [], [], []. rewrite !app_nil_r. repeat split; cbn; [lia|reflexivity].
  - eexists [], [], [_]. cbn [basic_publish walls paths robot_path redis].
    rewrite !app_nil_r. repeat split; cbn; [lia|reflexivity].
  - eexists [_], [], []. cbn [r_set walls paths robot_path redis].
    rewrite !app_nil_r. repeat split; cbn; [lia|].
    rewrite dom_insert_L. apply union_subseteq_r.
  - eexists [], [_], []. cbn [planned_world r_set walls paths robot_path redis].
    rewrite !app_nil_r. repeat split; cbn; [lia|].
    rewrite dom_insert_L. apply union_subseteq_r.
Qed.

(** X2: a request that fails has written nothing: Redis, the two tables
    and the queue are as they were, and a connection that was aborted is
    still aborted.  [create_wall] fails with the exception by which its
    INSERT was refused, uncaught; [generate_path] fails with a 500;
    [execute_path] and [get_path] fail with the 404 when the store,
    asked, has no row of the uuid, and with the exception by which the
    SELECT was refused otherwise; [get_metrics] does not fail. *)
Theorem failed_request_changes_nothing
    (rq : request) (st : world) (failed : failure) (st1 : world) :
  serve astar rq st = (inl failed, st1) ->
  redis st1 = redis st /\ walls st1 = walls st /\ paths st1 = paths st
  /\ robot_path st1 = robot_path st
  /\ (aborted st = true -> aborted st1 = true)
  /\ match rq with
     | CreateWall wall_id _ =>
         exists e,
           failed = Uncaught e
           /\ (e = ValueError \/ e = InFailedSqlTransaction
               \/ e = DataError \/ e = IntegrityError)
           /\ (aborted st = true
               \/ fresh_uuid wall_id (map wr_id (walls st)) = false)
     | GeneratePath _ _ => exists e, failed = HTTPException 500 (StrOf e)
     | ExecutePath path_id | GetPath path_id =>
         (failed = HTTPException 404 (Message "Path not found")
          /\ st1 = st /\ aborted st = false
          /\ exists u, uuid_in path_id = Some u
                       /\ Forall (fun row => uuid_in (pr_id row) <> Some u)
                                 (paths st))
         \/ (exists e, failed = Uncaught e
                       /\ (e = ValueError \/ e = InFailedSqlTransaction
                           \/ e = DataError)
                       /\ (aborted st = true \/ uuid_in path_id = None))
     | GetMetrics => False
     end.
Proof.
  assert (forall p, is_uuid p = false -> uuid_in p = None) as Hnot.
  { intros p. unfold is_uuid. now destruct (uuid_in p). }
  destruct rq as [w wall|p req|p| |p]; cbn [serve].
  - destruct (create_wall_cases w wall st)
      as [[_ ->]|[Hacc (e & st' & -> & Hst & Hab & He)]]; [discriminate|].
    intros [= <- <-]. apply stores_eq in Hst as (Hr & Hw & Hp & Hq).
    repeat split; try assumption. exists e. repeat split; [exact He|].
    unfold accepts_wall in Hacc. apply andb_false_iff in Hacc as [Hacc|Hacc];
      [left; now apply negb_false_iff|now right].
  - intros Hfail. apply generate_path_fails in Hfail as (Hst & Hab & He).
    apply stores_eq in Hst as (Hr & Hw & Hp & Hq). repeat split; assumption.
  - destruct (execute_path_cases p st)
      as [(text & _ & ->)|[(_ & Hab & u & Hu & Hrow)
                          |(_ & e & st' & -> & Hst & Hkeep & He & Hwhy)]];
      [discriminate| |].
    + destruct (find _ _) as [row|] eqn:Hfound; rewrite Hrow; [discriminate|].
      intros [= <- <-]. repeat split; try assumption; try congruence.
      left. repeat split; [exact Hab|]. exists u. split; [exact Hu|].
      now apply find_uuid_none.
    + intros [= <- <-]. apply stores_eq in Hst as (Hr & Hw & Hp & Hq).
      repeat split; try assumption. right. exists e.
      repeat split; [exact He|]. destruct Hwhy; auto.
  - discriminate.
  - destruct (get_path_cases p st)
      as [(Hab & u & Hu & Hrow)|(e & st' & -> & Hst & Hkeep & He & Hwhy)].
    + destruct (find _ _) as [row|] eqn:Hfound; rewrite Hrow; [discriminate|].
      intros [= <- <-]. repeat split; try assumption; try congruence.
      left. repeat split; [exact Hab|]. exists u. split; [exact Hu|].
      now apply find_uuid_none.
    + intros [= <- <-]. apply stores_eq in Hst as (Hr & Hw & Hp & Hq).
      repeat split; try assumption. right. exists e.
      repeat split; [exact He|]. destruct Hwhy; auto.
Qed.

(** A row that a uuid selects is selected after any further request. *)
Lemma find_uuid_kept (u : list N) (row : path_row) (rq : request) (st : world) :
  find (fun r => same_uuid u (pr_id r)) (paths st) = Some row ->
  find (fun r => same_uuid u (pr_id r)) (paths (snd (serve astar rq st)))
  = Some row.
Proof.
  intros Hrow.
  destruct (serve_effect astar rq st)
    as [[Hsame _]|[(body & ->)|[(w & wall & _ & _ & ->)
                               |(p & req & path & _ & _ & _ & ->)]]].
  - apply stores_eq in Hsame as (_ & _ & -> & _). exact Hrow.
  - exact Hrow.
  - exact Hrow.
  - cbn [planned_world r_set paths]. now apply find_app_some.
Qed.

(** X1: a path that was planned is read back by [get_path], under its
    identifier and under any other text of the same uuid, with the path
    and the metrics of the response, after any sequence of later
    requests, as long as the connection is usable; once a statement has
    failed on the connection, [get_path] raises instead.  [get_path]
    changes nothing in either case. *)
Theorem planned_path_is_read_back
    (st : world) (path_id : string) (req : PathRequest.t)
    (response : json) (st1 : world) (rqs : list request) (other : string) :
  generate_path astar path_id req st = (inr response, st1) ->
  uuid_in other = uuid_in path_id ->
  exists path_json metrics_json,
    json_field "path" response = Some path_json
    /\ json_field "metrics" response = Some metrics_json
    /\ get_path other (serve_all astar rqs st1)
       = if aborted (serve_all astar rqs st1)
         then (inl (Uncaught InFailedSqlTransaction), serve_all astar rqs st1)
         else (inr (JObj [("path", path_json); ("metrics", metrics_json)]),
               serve_all astar rqs st1).
Proof.
  intros Hplan Hother.
  apply generate_path_returns in Hplan as (path & _ & Hacc & -> & ->).
  exists (path_doc path), (metrics_doc path).
  split; [reflexivity|]. split; [reflexivity|].
  pose proof (select_path_planned path_id req path st Hacc) as Hrow.
  unfold select_path in Hrow. cbn [planned_world r_set aborted] in Hrow.
  destruct (has_nul path_id); [discriminate|].
  destruct (uuid_in path_id) as [u|] eqn:Hu; [|discriminate].
  injection Hrow as Hrow.
  change (paths st ++ [planned_row path_id req path])
    with (paths (planned_world path_id req path st)) in Hrow.
  assert (find (fun r => same_uuid u (pr_id r))
               (paths (serve_all astar rqs (planned_world path_id req path st)))
          = Some (planned_row path_id req path)) as Hlater.
  { revert Hrow. generalize (planned_world path_id req path st).
    induction rqs as [|rq rqs IH]; intros st1 Hrow; [exact Hrow|].
    cbn [serve_all fold_left]. now apply IH, find_uuid_kept. }
  unfold get_path, select_path.
  rewrite (uuid_in_no_nul _ _ Hother), Hother, Hlater.
  now destruct (aborted _).
Qed.

(** X11: dispatch can be replayed.  [execute_path] reads and does not
    consume: it leaves Redis and the tables as they are, and a second
    dispatch of an identifier publishes the message of the first once
    more. *)
Theorem dispatch_twice_sends_twice
    (st : world) (path_id : string) (response : json) (st1 : world) :
  execute_path path_id st = (inr response, st1) ->
  exists body,
    st1 = basic_publish body st
    /\ execute_path path_id st1 = (inr response, basic_publish body st1)
    /\ robot_path (basic_publish body st1) = robot_path st ++ [body; body].
Proof.
  unfold execute_path, select_path.
  change (r_get (path_key path_id) (basic_publish ?b st))
    with (r_get (path_key path_id) st).
  destruct (truthy (r_get (path_key path_id) st)) as [text|] eqn:Hcache.
  - intros [= <- <-]. exists text.
    change (r_get (path_key path_id) (basic_publish text st))
      with (r_get (path_key path_id) st).
    rewrite Hcache. repeat split. cbn [basic_publish robot_path].
    now rewrite <- app_assoc.
  - destruct (has_nul path_id); [discriminate|].
    destruct (aborted st) eqn:Hab; [discriminate|].
    destruct (uuid_in path_id) as [u|]; [|discriminate].
    destruct (find _ (paths st)) as [row|] eqn:Hrow; [|discriminate].
    intros [= <- <-]. exists (dumps (pr_path_json row)).
    change (r_get (path_key path_id) (basic_publish ?b st))
      with (r_get (path_key path_id) st).
    cbn [basic_publish aborted paths]. rewrite Hcache, Hab, Hrow.
    split; [reflexivity|]. split; [reflexivity|].
    cbn [basic_publish robot_path]. now rewrite <- app_assoc.
Qed.

Lemma planned_world_dispatch path_id req path st :
  execute_path path_id (planned_world path_id req path st)
  = (inr (JObj [("status", JStr "sent")]),
     basic_publish (dumps (path_doc path)) (planned_world path_id req path st)).
Proof.
  unfold execute_path, r_get, planned_world, r_set. cbn [redis].
  now rewrite lookup_insert_eq, truthy_dumps.
Qed.

(** X14: from registration to the robot.  A wall that was created, whose
    obstacles rasterise to [grid] and on whose grid the search finds
    [path], is planned under a new uuid, with a selector that can be
    bound to the INSERT, with that path and its metrics, and its dispatch
    adds to the queue one message: the serialised path. *)
Theorem wall_is_planned_and_dispatched
    (st : world) (wall_id path_id algorithm : string) (wall : Wall.t)
    (created : json) (st1 : world)
    (grid : list (list Z)) (path : list cell) :
  create_wall wall_id wall st = (inr created, st1) ->
  rasterize (obstacles_doc (Wall.obstacles wall)) = inr grid ->
  astar grid (0, 0) (grid_size - 1, grid_size - 1) = inr (Some path) ->
  has_nul algorithm = false ->
  fresh_uuid path_id (map pr_id (paths st)) = true ->
  exists planned st2 sent st3,
    generate_path astar path_id
      {| PathRequest.wall_id := wall_id;
         PathRequest.algorithm := algorithm |} st1 = (inr planned, st2)
    /\ json_field "path" planned = Some (path_doc path)
    /\ json_field "metrics" planned = Some (metrics_doc path)
    /\ execute_path path_id st2 = (inr sent, st3)
    /\ robot_path st3 = robot_path st ++ [dumps (path_doc path)].
Proof.
  intros Hcreate Hgrid Hsearch Hnul Hfresh.
  set (req := {| PathRequest.wall_id := wall_id;
                 PathRequest.algorithm := algorithm |}).
  assert (paths st1 = paths st /\ robot_path st1 = robot_path st
          /\ aborted st1 = false /\ is_uuid wall_id = true)
    as (Hpaths & Hqueue & Hab & Hwall).
  { destruct (create_wall_cases wall_id wall st)
      as [[Hacc Hc]|[_ (e & st' & Hc & _)]];
      rewrite Hc in Hcreate; [|discriminate].
    injection Hcreate as _ <-. repeat split.
    unfold accepts_wall, fresh_uuid in Hacc. unfold is_uuid.
    destruct (uuid_in wall_id); [reflexivity|].
    now rewrite andb_false_r in Hacc. }
  apply create_wall_registers in Hcreate as [_ [Hget _]].
  assert (compute_path astar req st1 = inr path) as Hcompute.
  { rewrite (compute_path_registered astar req (Wall.obstacles wall) st1 Hget).
    rewrite Hgrid. cbn [ebind]. now rewrite Hsearch. }
  assert (generate_path astar path_id req st1
          = (inr (planned_response path_id path),
             planned_world path_id req path st1)) as Hplan.
  { apply generate_path_returns. exists path.
    repeat split; [assumption|].
    unfold accepts_plan. cbn [req PathRequest.algorithm PathRequest.wall_id].
    now rewrite Hnul, Hab, Hwall, Hpaths, Hfresh. }
  exists (planned_response path_id path), (planned_world path_id req path st1).
  eexists _, _. split; [exact Hplan|].
  split; [reflexivity|]. split; [reflexivity|].
  split; [apply planned_world_dispatch|].
  cbn [basic_publish robot_path planned_world r_set]. now rewrite Hqueue.
Qed.

(** X18: the connection is never rolled back.  A request for a path
    whose identifier is no uuid is refused by the server with
    [DataError] and leaves the connection aborted.  On an aborted
    connection every later request that runs a statement fails,
    [create_wall] and [get_path] with the uncaught exception, and
    [generate_path] with its 500, whatever requests are served; the
    connection stays aborted and nothing is written to Redis or to the
    tables again. *)
Theorem connection_is_never_rolled_back (st : world) :
  (forall path_id,
     aborted st = false -> has_nul path_id = false ->
     uuid_in path_id = None ->
     get_path path_id st = (inl (Uncaught DataError), abort st)
     /\ (truthy (r_get (path_key path_id) st) = None ->
         execute_path path_id st = (inl (Uncaught DataError), abort st)))
  /\ (aborted st = true ->
      forall rqs,
        aborted (serve_all astar rqs st) = true
        /\ redis (serve_all astar rqs st) = redis st
        /\ walls (serve_all astar rqs st) = walls st
        /\ paths (serve_all astar rqs st) = paths st
        /\ forall rq,
             match rq with
             | CreateWall _ _ | GetPath _ =>
                 exists e,
                   fst (serve astar rq (serve_all astar rqs st))
                   = inl (Uncaught e)
                   /\ (e = InFailedSqlTransaction \/ e = ValueError)
             | GeneratePath _ _ =>
                 exists e,
                   fst (serve astar rq (serve_all astar rqs st))
                   = inl (HTTPException 500 (StrOf e))
             | ExecutePath _ | GetMetrics => True
             end).
Proof.
  split.
  - intros path_id Hab Hnul Hu.
    unfold execute_path, get_path, select_path. rewrite Hnul, Hab, Hu.
    split; [reflexivity|]. now intros ->.
  - intros Hab rqs.
    assert (aborted (serve_all astar rqs st) = true
            /\ redis (serve_all astar rqs st) = redis st
            /\ walls (serve_all astar rqs st) = walls st
            /\ paths (serve_all astar rqs st) = paths st)
      as (Hlater & Hr & Hw & Hp).
    { apply (serve_all_keeps_invariant
               (fun st' => aborted st' = true /\ redis st' = redis st
                           /\ walls st' = walls st /\ paths st' = paths st));
        [|auto].
      intros rq st' (Hab' & Hr & Hw & Hp).
      split; [now apply serve_aborted_stays|].
      destruct (serve_effect astar rq st')
        as [[Hsame _]|[(body & ->)|[(w & wall & _ & Hacc & _)
                                   |(p & req & path & _ & _ & Hacc & _)]]].
      - apply stores_eq in Hsame as (-> & -> & -> & _). auto.
      - auto.
      - unfold accepts_wall in Hacc. rewrite Hab' in Hacc. discriminate.
      - unfold accepts_plan in Hacc. rewrite Hab', andb_false_r in Hacc.
        discriminate. }
    repeat split; try assumption.
    generalize dependent (serve_all astar rqs st). intros st' Hlater _ _ _.
    intros [w wall|p req|p| |p]; cbn [serve]; try exact I.
    + unfold create_wall, insert_wall. cbn [wr_id]. rewrite Hlater.
      destruct (has_nul w); eauto.
    + destruct (generate_path astar p req st') as [[failed|response] st1] eqn:Hplan.
      * apply generate_path_fails in Hplan as (_ & _ & e & ->). eauto.
      * apply generate_path_returns in Hplan as (path & _ & Hacc & _).
        unfold accepts_plan in Hacc. rewrite Hlater, andb_false_r in Hacc.
        discriminate.
    + unfold get_path, select_path. rewrite Hlater.
      destruct (has_nul p); eauto.
Qed.

End Lifetime.
(** ** More on rasterisation *)

Section Grids.
Context `{Codec}.

Lemma set_cell_binary grid x y : binary grid -> binary (set_cell grid x y).
Proof.
  intros Hgrid. unfold set_cell, binary.
  apply Forall_alter; [exact Hgrid|].
  intros row _ Hrow.
  destruct (decide (Z.to_nat x < length row)%nat) as [Hlt|Hge].
  - eapply Forall_insert; [exact Hrow|now right].
  - rewrite list_insert_ge by lia. exact Hrow.
Qed.

Lemma empty_grid_binary : binary empty_grid.
Proof.
  unfold binary, empty_grid. apply Forall_forall. intros row Hrow.
  apply list_elem_of_In, repeat_spec in Hrow. subst row.
  apply Forall_forall. intros v Hv.
  apply list_elem_of_In, repeat_spec in Hv. now left.
Qed.

Lemma mark_all_keeps (P : list (list Z) -> Prop) :
  (forall grid x y, P grid -> P (set_cell grid x y)) ->
  forall items grid grid',
    P grid -> mark_all grid items = inr grid' -> P grid'.
Proof.
  intros Hset items. induction items as [|obs items IH];
    intros grid grid' Hgrid Hmark.
  - now injection Hmark as <-.
  - cbn [mark_all] in Hmark. destruct (mark grid obs) as [e|grid1] eqn:Hone;
      [discriminate|].
    cbn [ebind] in Hmark. apply (IH grid1); [|exact Hmark].
    unfold mark in Hone.
    destruct (py_getitem obs "x") as [e|vx]; [discriminate|]. cbn [ebind] in Hone.
    destruct (py_int vx) as [e|x]; [discriminate|]. cbn [ebind] in Hone.
    destruct (py_getitem obs "y") as [e|vy]; [discriminate|]. cbn [ebind] in Hone.
    destruct (py_int vy) as [e|y]; [discriminate|]. cbn [ebind] in Hone.
    injection Hone as <-. destruct (in_grid x y); auto.
Qed.

(** X15: whatever document Redis holds for a wall, a grid that is handed
    to the search has ten rows of ten cells, and every cell holds 0 or
    1. *)
Theorem rasterized_grid_is_square_and_binary
    (wall_obstacles : json) (grid : list (list Z)) :
  rasterize wall_obstacles = inr grid -> square grid /\ binary grid.
Proof.
  unfold rasterize. destruct (py_iter wall_obstacles) as [e|items];
    [discriminate|].
  cbn [ebind]. intros Hmark. split.
  - apply (mark_all_keeps square set_cell_square items empty_grid);
      [apply empty_grid_square|exact Hmark].
  - apply (mark_all_keeps binary set_cell_binary items empty_grid);
      [apply empty_grid_binary|exact Hmark].
Qed.

(** X12: the obstacles of a wall are rasterised exactly when the x and
    the y of every obstacle are finite.  Otherwise rasterisation raises
    at the first coordinate, in the order of the loop (x before y, obstacle
    after obstacle), that is not finite: [OverflowError] when it is an
    infinity, [ValueError] when it is a NaN. *)
Theorem rasterize_succeeds_iff_finite (obstacles : list Obstacle.t) :
  match find (fun f => negb (finite_float f)) (coordinates obstacles) with
  | None => exists grid, rasterize (obstacles_doc obstacles) = inr grid
  | Some (S754_infinity _) =>
      rasterize (obstacles_doc obstacles) = inl OverflowError
  | Some S754_nan => rasterize (obstacles_doc obstacles) = inl ValueError
  | Some _ => False
  end.
Proof.
  rewrite rasterize_obstacles. generalize empty_grid as grid.
  induction obstacles as [|obs rest IH]; intros grid; [cbn; eauto|].
  cbn [coordinates flat_map app find mark_cells]. unfold anchor.
  destruct (Obstacle.x obs) as [s|s| |s m e]; cbn; try reflexivity;
    destruct (Obstacle.y obs) as [s'|s'| |s' m' e']; cbn; try reflexivity;
    apply IH.
Qed.

Lemma square_grids_equal (grid grid' : list (list Z)) :
  square grid -> square grid' ->
  (forall x y, grid_at grid x y = grid_at grid' x y) -> grid = grid'.
Proof.
  unfold square, grid_size. change (Z.to_nat 10) with 10%nat.
  intros [Hlen Hrows] [Hlen' Hrows'] Hat. apply list_eq. intros i.
  destruct (decide (i < 10)%nat) as [Hi|Hi].
  2:{ rewrite !lookup_ge_None_2 by lia. reflexivity. }
  destruct (lookup_lt_is_Some_2 grid i) as [row Hrow]; [lia|].
  destruct (lookup_lt_is_Some_2 grid' i) as [row' Hrow']; [lia|].
  rewrite Hrow, Hrow'. f_equal.
  assert (length row = 10%nat) as Hr.
  { eapply Forall_forall in Hrows; [exact Hrows|].
    eapply list_elem_of_lookup_2, Hrow. }
  assert (length row' = 10%nat) as Hr'.
  { eapply Forall_forall in Hrows'; [exact Hrows'|].
    eapply list_elem_of_lookup_2, Hrow'. }
  apply list_eq. intros j. specialize (Hat (Z.of_nat j) (Z.of_nat i)).
  unfold grid_at in Hat.
  destruct (Z.leb_spec 0 (Z.of_nat j)); [|lia].
  destruct (Z.leb_spec 0 (Z.of_nat i)); [|lia].
  cbn [andb] in Hat. rewrite !Nat2Z.id, Hrow, Hrow' in Hat. exact Hat.
Qed.

(** X13: the grid of a wall depends on which obstacles the wall has, not
    on their order and not on how often one is listed. *)
Theorem grid_depends_on_the_set_of_obstacles
    (obstacles obstacles' : list Obstacle.t) (grid grid' : list (list Z)) :
  (forall obs, In obs obstacles <-> In obs obstacles') ->
  rasterize (obstacles_doc obstacles) = inr grid ->
  rasterize (obstacles_doc obstacles') = inr grid' ->
  grid = grid'.
Proof.
  intros Hsame. rewrite !rasterize_obstacles. intros Hgrid Hgrid'.
  apply mark_cells_spec in Hgrid as [Hsq Hat]; [|apply empty_grid_square].
  apply mark_cells_spec in Hgrid' as [Hsq' Hat']; [|apply empty_grid_square].
  apply square_grids_equal; [assumption..|].
  intros x y. rewrite Hat, Hat'.
  assert (existsb (anchored_at x y) obstacles
          = existsb (anchored_at x y) obstacles') as ->; [|reflexivity].
  apply eq_true_iff_eq. rewrite !existsb_exists.
  split; intros (obs & Hin & Hobs); exists obs;
    (split; [now apply Hsame|exact Hobs]).
Qed.

Lemma float_trunc_int_part (f : spec_float) (q : Q) :
  float_Q f = Some q -> float_trunc f = inr (int_part q).
Proof.
  destruct f as [s|s| |s m e]; try discriminate; intros [= <-];
    [reflexivity|].
  cbn [float_trunc]. f_equal. unfold int_part, Qle_bool, Qceiling, Qfloor.
  destruct e as [|k|k].
  - rewrite Z.shiftl_0_r. change (2 ^ 0) with 1. rewrite Z.mul_1_r.
    destruct s; cbn [Qopp inject_Z Qnum Qden];
      match goal with |- context [?a <=? ?b] => destruct (Z.leb_spec a b) end;
      rewrite ?Z.opp_involutive, ?Z.div_1_r; try reflexivity; lia.
  - rewrite Z.shiftl_mul_pow2 by lia.
    pose proof (Z.pow_pos_nonneg 2 (Z.pos k) ltac:(lia) ltac:(lia)) as Hpow.
    destruct s; cbn [Qopp inject_Z Qnum Qden];
      match goal with |- context [?a <=? ?b] => destruct (Z.leb_spec a b) end;
      rewrite ?Z.opp_involutive, ?Z.div_1_r; try reflexivity; nia.
  - change (Z.shiftl (Z.pos m) (Z.neg k)) with (Z.shiftr (Z.pos m) (Z.pos k)).
    rewrite Z.shiftr_div_pow2 by lia. rewrite <- Pos2Z.inj_pow.
    destruct s; cbn [Qopp Qnum Qden];
      match goal with |- context [?a <=? ?b] => destruct (Z.leb_spec a b) end;
      rewrite ?Z.opp_involutive; try reflexivity; lia.
Qed.

Lemma int_part_within (q : Q) :
  (0 <=? int_part q) && (int_part q <? grid_size) = true <-> within q.
Proof.
  unfold within, int_part, Qle_bool, Qceiling, Qfloor, Qlt, grid_size.
  destruct q as [n d]. cbn [Qopp inject_Z Qnum Qden].
  rewrite andb_true_iff, Z.leb_le, Z.ltb_lt.
  pose proof (Z.div_mod n (Z.pos d) ltac:(lia)) as Hdm.
  pose proof (Z.mod_pos_bound n (Z.pos d) ltac:(lia)) as Hmod.
  pose proof (Z.div_mod (- n) (Z.pos d) ltac:(lia)) as Hdm'.
  pose proof (Z.mod_pos_bound (- n) (Z.pos d) ltac:(lia)) as Hmod'.
  destruct (Z.leb_spec (0 * Z.pos d) (n * 1)); nia.
Qed.

Lemma int_part_small (q : Q) :
  (inject_Z (-1) < q)%Q -> (q < 1)%Q -> int_part q = 0.
Proof.
  unfold int_part, Qle_bool, Qceiling, Qfloor, Qlt.
  destruct q as [n d]. cbn [Qopp inject_Z Qnum Qden]. intros Hlow Hhigh.
  destruct (Z.leb_spec (0 * Z.pos d) (n * 1)).
  - apply Z.div_small. lia.
  - rewrite Z.div_small; lia.
Qed.

(** X16: the bounds of the grid, in wall coordinates.  [int] truncates
    toward zero before the bounds are tested, so an obstacle at the
    finite position (x, y) is marked exactly when -1 < x < 10 and
    -1 < y < 10, and the cell that is marked is the one of the integer
    parts of x and y; otherwise the grid is left as it is.  Positions up
    to one unit left of or above the wall fall into column 0 or row
    0. *)
Theorem obstacle_is_marked_iff_within_bounds
    (grid : list (list Z)) (obs : Obstacle.t) (qx qy : Q) :
  float_Q (Obstacle.x obs) = Some qx ->
  float_Q (Obstacle.y obs) = Some qy ->
  (within qx /\ within qy ->
   mark grid (obstacle_dict obs)
   = inr (set_cell grid (int_part qx) (int_part qy)))
  /\ (~ (within qx /\ within qy) -> mark grid (obstacle_dict obs) = inr grid)
  /\ ((inject_Z (-1) < qx)%Q /\ (qx < 1)%Q -> int_part qx = 0)
  /\ ((inject_Z (-1) < qy)%Q /\ (qy < 1)%Q -> int_part qy = 0).
Proof.
  intros Hx Hy. rewrite mark_obstacle. unfold anchor.
  rewrite (float_trunc_int_part _ _ Hx), (float_trunc_int_part _ _ Hy).
  cbn [ebind fst snd].
  assert (in_grid (int_part qx) (int_part qy) = true <-> within qx /\ within qy)
    as Hin.
  { unfold in_grid. rewrite <- !int_part_within, <- andb_assoc, andb_true_iff.
    reflexivity. }
  split; [|split; [|split]].
  - intros Hwithin. apply Hin in Hwithin. now rewrite Hwithin.
  - intros Hout. destruct (in_grid _ _); [|reflexivity].
    exfalso. now apply Hout, Hin.
  - intros [Hlow Hhigh]. now apply int_part_small.
  - intros [Hlow Hhigh]. now apply int_part_small.
Qed.

End Grids.

(** ** The lifetime properties at work *)

(** The plan p1 is read back, under its identifier written in capitals,
    after a wall, a second plan and a dispatch. *)
Lemma planned_path_is_read_back_witness :
  exists path_json metrics_json,
    json_field "path" (planned_response p1 open_path) = Some path_json
    /\ json_field "metrics" (planned_response p1 open_path) = Some metrics_json
    /\ get_path p1_upper
         (serve_all astar_spec
            [CreateWall w2 (wall_of enclosing);
             GeneratePath p2 (plan_w1 "astar");
             ExecutePath p1]
            world_planned)
       = if aborted
              (serve_all astar_spec
                 [CreateWall w2 (wall_of enclosing);
                  GeneratePath p2 (plan_w1 "astar");
                  ExecutePath p1]
                 world_planned)
         then (inl (Uncaught InFailedSqlTransaction),
               serve_all astar_spec
                 [CreateWall w2 (wall_of enclosing);
                  GeneratePath p2 (plan_w1 "astar");
                  ExecutePath p1]
                 world_planned)
         else (inr (JObj [("path", path_json); ("metrics", metrics_json)]),
               serve_all astar_spec
                 [CreateWall w2 (wall_of enclosing);
                  GeneratePath p2 (plan_w1 "astar");
                  ExecutePath p1]
                 world_planned).
Proof.
  apply (planned_path_is_read_back astar_spec (world_with (wall_of [])) p1
           (plan_w1 "astar") (planned_response p1 open_path) world_planned);
    vm_compute; reflexivity.
Defined.

(** A request for the path "abc" fails, and leaves the tables and the
    queue as they were. *)
Lemma failed_request_changes_nothing_witness :
  redis (abort world_planned) = redis world_planned
  /\ walls (abort world_planned) = walls world_planned
  /\ paths (abort world_planned) = paths world_planned
  /\ robot_path (abort world_planned) = robot_path world_planned.
Proof.
  destruct (failed_request_changes_nothing astar_spec (GetPath "abc")
              world_planned (Uncaught DataError) (abort world_planned))
    as (Hr & Hw & Hp & Hq & _); [vm_compute; reflexivity|].
  repeat split; assumption.
Defined.

Lemma dispatch_survives_eviction_witness :
  fst (execute_path p1
         (evict p1
            (serve_all astar_spec
               [CreateWall w1 (wall_of []); GeneratePath p1 (plan_w1 "astar")]
               empty_world)))
  = fst (execute_path p1
           (serve_all astar_spec
              [CreateWall w1 (wall_of []); GeneratePath p1 (plan_w1 "astar")]
              empty_world)).
Proof.
  apply (dispatch_survives_eviction astar_spec
           [CreateWall w1 (wall_of []); GeneratePath p1 (plan_w1 "astar")] p1).
  vm_compute. reflexivity.
Defined.

(** The answers of the database on the world of the plan p1.  The path
    "abc" is refused with [DataError] and leaves the connection aborted;
    after that [get_path] and [create_wall] are refused, while the cached
    plan is still dispatched.  The identifier of p1 in capitals selects
    the row of p1.  A selector with a NUL is refused by the driver, and
    the connection stays usable. *)
Lemma database_answers :
  get_path "abc" world_planned = (inl (Uncaught DataError), abort world_planned)
  /\ get_path p1 (abort world_planned)
     = (inl (Uncaught InFailedSqlTransaction), abort world_planned)
  /\ fst (create_wall w2 (wall_of []) (abort world_planned))
     = inl (Uncaught InFailedSqlTransaction)
  /\ fst (execute_path p1 (abort world_planned))
     = inr (JObj [("status", JStr "sent")])
  /\ fst (get_path p1_upper world_planned) = fst (get_path p1 world_planned)
  /\ generate_path astar_spec p2 (plan_w1 nul_selector) world_planned
     = (inl (HTTPException 500 (StrOf ValueError)), world_planned).
Proof. vm_compute. repeat split. Qed.

Lemma dispatch_twice_sends_twice_witness :
  exists body,
    basic_publish (dumps (path_doc open_path)) world_planned
    = basic_publish body world_planned
    /\ execute_path p1 (basic_publish (dumps (path_doc open_path)) world_planned)
       = (inr (JObj [("status", JStr "sent")]),
          basic_publish body
            (basic_publish (dumps (path_doc open_path)) world_planned))
    /\ robot_path
         (basic_publish body
            (basic_publish (dumps (path_doc open_path)) world_planned))
       = robot_path world_planned ++ [body; body].
Proof.
  apply (dispatch_twice_sends_twice world_planned p1
           (JObj [("status", JStr "sent")])
           (basic_publish (dumps (path_doc open_path)) world_planned)).
  vm_compute. reflexivity.
Defined.

Lemma grid_depends_on_the_set_of_obstacles_witness :
  set_cell (set_cell empty_grid 5 5) 8 9
  = set_cell (set_cell (set_cell empty_grid 8 9) 5 5) 5 5.
Proof.
  apply (grid_depends_on_the_set_of_obstacles
           [big_circle; circle (float_of_Z 8) (float_of_Z 9) (float_of_Z 1)]
           [circle (float_of_Z 8) (float_of_Z 9) (float_of_Z 1);
            big_circle; big_circle]).
  - intros obs. cbn [In]. tauto.
  - vm_compute. reflexivity.
  - vm_compute. reflexivity.
Defined.

Lemma wall_is_planned_and_dispatched_witness :
  exists planned st2 sent st3,
    generate_path astar_spec p1
      {| PathRequest.wall_id := w1; PathRequest.algorithm := "astar" |}
      (world_with (wall_of [])) = (inr planned, st2)
    /\ json_field "path" planned = Some (path_doc open_path)
    /\ json_field "metrics" planned = Some (metrics_doc open_path)
    /\ execute_path p1 st2 = (inr sent, st3)
    /\ robot_path st3 = robot_path empty_world ++ [dumps (path_doc open_path)].
Proof.
  apply (wall_is_planned_and_dispatched astar_spec empty_world w1 p1 "astar"
           (wall_of []) (JObj [("wall_id", JStr w1)])
           (world_with (wall_of [])) empty_grid open_path);
    vm_compute; reflexivity.
Defined.

Lemma rasterized_grid_is_square_and_binary_witness :
  square (set_cell empty_grid 5 5) /\ binary (set_cell empty_grid 5 5).
Proof.
  apply (rasterized_grid_is_square_and_binary (obstacles_doc [big_circle])).
  vm_compute. reflexivity.
Defined.

(** An obstacle half a unit left of the wall, a quarter above its lower
    edge: it is marked, in column 0 of row 9. *)
Lemma obstacle_is_marked_iff_within_bounds_witness :
  mark empty_grid
    (obstacle_dict (circle (S754_finite true 1 (-1))
                           (S754_finite false 39 (-2)) (float_of_Z 1)))
  = inr (set_cell empty_grid 0 9).
Proof.
  apply (obstacle_is_marked_iff_within_bounds empty_grid
           (circle (S754_finite true 1 (-1)) (S754_finite false 39 (-2))
                   (float_of_Z 1))
           (- (1 # 2))%Q (39 # 4)%Q); [reflexivity..|].
  repeat split.
Defined.
